(** * Audio fingerprinting: peak extraction, landmark hashing, index and matcher

    A shallow embedding of [src/audio-fingerprinting-core.py] and
    [src/audio-fingerprinting-database.py].

    Conventions of the embedding:
    - Python [int]s are [Z]; list indices produced by [range]/[enumerate]
      are [nat] and are injected into [Z] where the code stores them.
    - Finite floating-point values (decibel magnitudes, samples, the match
      confidence) are the rationals they denote, in [Q]; comparisons of
      finite floats agree with the comparisons of those rationals, and the
      correctly rounded quotient of two integers is monotone in the exact
      quotient.  Equality of magnitudes is [Qeq], as Python's [==] on floats
      is numeric.
    - [sorted(..., reverse=True)] and [list.sort(reverse=True)] are stable;
      they are embedded as a stable insertion sort, which computes the same
      list as any other stable sort ([stable_sort_unique]).
    - A [dict] is an association list in insertion order, since the code
      iterates over its dictionaries.
    - Exceptions and the module logger are explicit: a computation takes the
      log and gives back an outcome and the extended log.
    - [librosa] and the storage engine are collaborators: the first is an
      interface of functions that may raise, the second is the table of rows
      for insertion and an arbitrary answer to each [SELECT] for matching. *)

From Stdlib Require Import Strings.String Strings.Ascii Strings.Byte DecimalString.
From Stdlib Require Import List ZArith QArith Bool Lia Permutation Sorted.
Import ListNotations.

Local Open Scope Z_scope.

(** ** Python built-ins used by the code *)

(** [l[lo:hi]] for non-negative bounds. *)
Definition slice {A : Type} (lo hi : nat) (l : list A) : list A :=
  firstn (hi - lo) (skipn lo l).

(** [l[:n]]; a negative [n] counts from the end of [l]. *)
Definition slice_to {A : Type} (n : Z) (l : list A) : list A :=
  if 0 <=? n then firstn (Z.to_nat n) l
  else firstn (Z.to_nat (Z.of_nat (length l) + n)) l.

(** [range(lo, hi)] when [lo] is an index. *)
Definition range (lo : nat) (hi : Z) : list nat :=
  seq lo (Z.to_nat (hi - Z.of_nat lo)).

(** [enumerate(l)] *)
Definition enumerate {A : Type} (l : list A) : list (nat * A) :=
  combine (seq 0 (length l)) l.

(** [str(n)] for an [int] *)
Definition str (n : Z) : string := NilZero.string_of_int (Z.to_int n).

Definition Qlt_bool (x y : Q) : bool := negb (Qle_bool y x).

(** [max(x :: rest)]: the first of the largest items. *)
Definition py_max (x : Q) (rest : list Q) : Q :=
  fold_left (fun m y => if Qlt_bool m y then y else m) rest x.

(** [sorted(l, key=key, reverse=True)] *)
Fixpoint insert_desc {A : Type} (key : A -> Q) (x : A) (l : list A) : list A :=
  match l with
  | [] => [x]
  | y :: l' =>
      if Qle_bool (key y) (key x) then x :: l else y :: insert_desc key x l'
  end.

Definition sorted_reverse {A : Type} (key : A -> Q) (l : list A) : list A :=
  fold_right (insert_desc key) [] l.

(** ** [hashlib.sha256] (FIPS 180-4), on 32-bit words held in [Z] *)

Module SHA256.

Definition w32 (x : Z) : Z := x mod 2 ^ 32.

Definition add32 (x y : Z) : Z := w32 (x + y).

Definition rotr (n x : Z) : Z :=
  Z.lor (Z.shiftr x n) (w32 (Z.shiftl x (32 - n))).

Definition not32 (x : Z) : Z := Z.lxor x (2 ^ 32 - 1).

Definition ch (x y z : Z) : Z := Z.lxor (Z.land x y) (Z.land (not32 x) z).

Definition maj (x y z : Z) : Z :=
  Z.lxor (Z.lxor (Z.land x y) (Z.land x z)) (Z.land y z).

Definition bsig0 (x : Z) : Z := Z.lxor (Z.lxor (rotr 2 x) (rotr 13 x)) (rotr 22 x).
Definition bsig1 (x : Z) : Z := Z.lxor (Z.lxor (rotr 6 x) (rotr 11 x)) (rotr 25 x).
Definition ssig0 (x : Z) : Z := Z.lxor (Z.lxor (rotr 7 x) (rotr 18 x)) (Z.shiftr x 3).
Definition ssig1 (x : Z) : Z := Z.lxor (Z.lxor (rotr 17 x) (rotr 19 x)) (Z.shiftr x 10).

(** Round constants: the fractional parts of the cube roots of the first
    sixty-four primes, 32 bits each. *)
Definition round_constants : list Z :=
  [ 1116352408; 1899447441; 3049323471; 3921009573;
    961987163; 1508970993; 2453635748; 2870763221;
    3624381080; 310598401; 607225278; 1426881987;
    1925078388; 2162078206; 2614888103; 3248222580;
    3835390401; 4022224774; 264347078; 604807628;
    770255983; 1249150122; 1555081692; 1996064986;
    2554220882; 2821834349; 2952996808; 3210313671;
    3336571891; 3584528711; 113926993; 338241895;
    666307205; 773529912; 1294757372; 1396182291;
    1695183700; 1986661051; 2177026350; 2456956037;
    2730485921; 2820302411; 3259730800; 3345764771;
    3516065817; 3600352804; 4094571909; 275423344;
    430227734; 506948616; 659060556; 883997877;
    958139571; 1322822218; 1537002063; 1747873779;
    1955562222; 2024104815; 2227730452; 2361852424;
    2428436474; 2756734187; 3204031479; 3329325298 ].

(** Initial state: the fractional parts of the square roots of the first
    eight primes. *)
Definition initial_state : list Z :=
  [ 1779033703; 3144134277; 1013904242; 2773480762;
    1359893119; 2600822924; 528734635; 1541459225 ].

(** The message, the byte 0x80, zero bytes up to 56 modulo 64, and the bit
    length on eight bytes, most significant first. *)
Definition big_endian (width : nat) (x : Z) : list Z :=
  map (fun i => Z.shiftr x (8 * Z.of_nat i) mod 256) (rev (seq 0 width)).

Definition pad (msg : list Z) : list Z :=
  let len := Z.of_nat (length msg) in
  msg ++ [128] ++ repeat 0 (Z.to_nat ((55 - len) mod 64)) ++ big_endian 8 (8 * len).

Definition of_big_endian (bs : list Z) : Z :=
  fold_left (fun acc b => acc * 256 + b) bs 0.

(** Cut a list into pieces of [n] items; [fuel] bounds the number of
    pieces. *)
Fixpoint chunks {A : Type} (fuel n : nat) (l : list A) : list (list A) :=
  match fuel, l with
  | O, _ | _, [] => []
  | S fuel', _ => firstn n l :: chunks fuel' n (skipn n l)
  end.

Definition words_of_bytes (bs : list Z) : list Z :=
  map of_big_endian (chunks (length bs) 4 bs).

(** The sixty-four words of the message schedule of one block. *)
Fixpoint schedule (n : nat) (ws : list Z) : list Z :=
  match n with
  | O => ws
  | S n' =>
      let t := length ws in
      let at_back k := nth (t - k) ws 0 in
      schedule n'
        (ws ++ [add32 (add32 (add32 (ssig1 (at_back 2%nat)) (at_back 7%nat))
                         (ssig0 (at_back 15%nat))) (at_back 16%nat)])
  end.

Record regs := Regs { ra : Z; rb : Z; rc : Z; rd : Z; re : Z; rf : Z; rg : Z; rh : Z }.

Definition round (s : regs) (kw : Z * Z) : regs :=
  let t1 := add32 (add32 (add32 (add32 (rh s) (bsig1 (re s)))
                     (ch (re s) (rf s) (rg s))) (fst kw)) (snd kw) in
  let t2 := add32 (bsig0 (ra s)) (maj (ra s) (rb s) (rc s)) in
  Regs (add32 t1 t2) (ra s) (rb s) (rc s) (add32 (rd s) t1) (re s) (rf s) (rg s).

Definition regs_of (h : list Z) : regs :=
  Regs (nth 0 h 0) (nth 1 h 0) (nth 2 h 0) (nth 3 h 0)
       (nth 4 h 0) (nth 5 h 0) (nth 6 h 0) (nth 7 h 0).

Definition list_of (s : regs) : list Z :=
  [ra s; rb s; rc s; rd s; re s; rf s; rg s; rh s].

Definition compress (h : list Z) (block : list Z) : list Z :=
  let s := fold_left round (combine round_constants (schedule 48 block)) (regs_of h) in
  map (fun p => add32 (fst p) (snd p)) (combine h (list_of s)).

Definition digest_words (msg : list Z) : list Z :=
  let ws := words_of_bytes (pad msg) in
  fold_left compress (chunks (length ws) 16 ws) initial_state.

(** [int(hashlib.sha256(msg).hexdigest(), 16)] *)
Definition digest_int (msg : list Z) : Z :=
  fold_left (fun acc h => acc * 2 ^ 32 + h) (digest_words msg) 0.

End SHA256.

(** [s.encode()]: the bytes of the string. *)
Definition encode (s : string) : list Z :=
  map (fun b => Z.of_N (Byte.to_N b)) (list_byte_of_string s).

Definition sha256_hexdigest_int (s : string) : Z := SHA256.digest_int (encode s).

(** ** [os.path] on POSIX paths *)

Fixpoint rfind_from (c : ascii) (s : string) (i last : Z) : Z :=
  match s with
  | EmptyString => last
  | String a rest => rfind_from c rest (i + 1) (if Ascii.eqb a c then i else last)
  end.

(** [s.rfind(c)]: the index of the last [c], or [-1]. *)
Definition rfind (c : ascii) (s : string) : Z := rfind_from c s 0 (-1).

(** [s[i:]] and [s[:i]] for [0 <= i]. *)
Definition str_from (i : Z) (s : string) : string :=
  substring (Z.to_nat i) (String.length s - Z.to_nat i) s.

Definition str_to (i : Z) (s : string) : string := substring 0 (Z.to_nat i) s.

Definition basename (p : string) : string := str_from (rfind "/" p + 1) p.

(** Whether some character of [s] at an index in [lo, hi) is not [c]. *)
Fixpoint has_other (c : ascii) (s : string) (i lo hi : Z) : bool :=
  match s with
  | EmptyString => false
  | String a rest =>
      ((lo <=? i) && (i <? hi) && negb (Ascii.eqb a c)) || has_other c rest (i + 1) lo hi
  end.

(** [os.path.splitext(p)]: the extension starts at the last dot of the last
    component, unless that component is made of leading dots up to it. *)
Definition splitext (p : string) : string * string :=
  let sepIndex := rfind "/" p in
  let dotIndex := rfind "." p in
  if (sepIndex <? dotIndex) && has_other "." p 0 (sepIndex + 1) dotIndex
  then (str_to dotIndex p, str_from dotIndex p)
  else (p, EmptyString).

(** ** Exceptions and logging *)

Inductive exn : Type :=
| ValueError (msg : string)
| OtherError (msg : string).

(** [str(e)] *)
Definition exn_str (e : exn) : string :=
  match e with ValueError msg | OtherError msg => msg end.

Inductive outcome (A : Type) : Type :=
| Returned (a : A)
| Raised (e : exn).

Arguments Returned {A} a.
Arguments Raised {A} e.

(** The records written with [logger.error], oldest first. *)
Definition log : Type := list string.

Definition M (A : Type) : Type := log -> outcome A * log.

Definition ret {A : Type} (a : A) : M A := fun lg => (Returned a, lg).

Definition raise {A : Type} (e : exn) : M A := fun lg => (Raised e, lg).

Definition lift {A : Type} (o : outcome A) : M A := fun lg => (o, lg).

Definition bind {A B : Type} (m : M A) (k : A -> M B) : M B :=
  fun lg =>
    match m lg with
    | (Returned a, lg') => k a lg'
    | (Raised e, lg') => (Raised e, lg')
    end.

(** [try: body except Exception as e: handler(e)] *)
Definition try_except {A : Type} (body : M A) (handler : exn -> M A) : M A :=
  fun lg =>
    match body lg with
    | (Returned a, lg') => (Returned a, lg')
    | (Raised e, lg') => handler e lg'
    end.

Definition logger_error (msg : string) : M unit :=
  fun lg => (Returned tt, lg ++ [msg]).

Notation "x <- m ;; k" := (bind m (fun x => k))
  (at level 61, m at next level, right associativity).

(** ** Dictionaries, in insertion order *)

Fixpoint dict_get {V : Type} (k : string) (d : list (string * V)) : option V :=
  match d with
  | [] => None
  | (k', v) :: d' => if String.eqb k k' then Some v else dict_get k d'
  end.

(** [d[k] = v]: an existing key keeps its place. *)
Fixpoint dict_set {V : Type} (k : string) (v : V) (d : list (string * V))
  : list (string * V) :=
  match d with
  | [] => [(k, v)]
  | (k', v') :: d' =>
      if String.eqb k k' then (k', v) :: d' else (k', v') :: dict_set k v d'
  end.

(** ** The data model *)

(** A two-dimensional array, indexed [frequency bin, time frame]. *)
Record ndarray : Type := {
  shape0 : nat;
  shape1 : nat;
  item : nat -> nat -> Q
}.

Record AudioFingerprint : Type := {
  hash_value : Z;
  track_id : option string;
  time_offset : Z;
  frequency_pair : Z * Z
}.

Record RobustAudioFingerprinter : Type := {
  sample_rate : Z;
  n_fft : Z;
  hop_length : Z;
  max_peaks : Z
}.

(** [RobustAudioFingerprinter()] *)
Definition default_fingerprinter : RobustAudioFingerprinter :=
  {| sample_rate := 16000; n_fft := 2048; hop_length := 512; max_peaks := 100 |}.

(** A peak [(time_index, frequency_index, magnitude)]. *)
Definition peak : Type := Z * Z * Q.

Definition peak_time (p : peak) : Z := fst (fst p).
Definition peak_freq (p : peak) : Z := snd (fst p).
Definition peak_mag (p : peak) : Q := snd p.

(** The numeric collaborators.  Each may raise. *)
Class Librosa : Type := {
  librosa_load : string -> Z -> outcome (list Q);
  librosa_normalize : list Q -> outcome (list Q);
  librosa_trim : list Q -> outcome (list Q);
  librosa_stft_abs : list Q -> Z -> Z -> outcome ndarray;
  librosa_amplitude_to_db : ndarray -> outcome ndarray
}.

(** ** [RobustAudioFingerprinter.find_peaks] *)

(** [spectrogram[:, t]] *)
Definition column (spectrogram : ndarray) (t : nat) : list Q :=
  map (fun f => item spectrogram f t) (seq 0 (shape0 spectrogram)).

(** The value of [is_peak] after the neighbourhood check of bin [f]. *)
Definition is_peak (frame : list Q) (f : nat) : bool :=
  let neighborhood := slice (f - 5) (Nat.min (length frame) (f + 6)) frame in
  match neighborhood with
  | [] => true
  | x :: rest => Qeq_bool (nth f frame 0%Q) (py_max x rest)
  end.

Definition noise_floor : Q := (-40)%Q.

Definition local_peaks (frame : list Q) : list (nat * Q) :=
  map (fun f => (f, nth f frame 0%Q))
      (filter (fun f => is_peak frame f && Qlt_bool noise_floor (nth f frame 0%Q))
              (seq 0 (length frame))).

(** The peaks appended for frame [t]. *)
Definition frame_peaks (self : RobustAudioFingerprinter) (spectrogram : ndarray)
  (t : nat) : list peak :=
  let frame := column spectrogram t in
  map (fun fm => (Z.of_nat t, Z.of_nat (fst fm), snd fm))
      (slice_to (max_peaks self) (sorted_reverse snd (local_peaks frame))).

Definition find_peaks (self : RobustAudioFingerprinter) (spectrogram : ndarray)
  : list peak :=
  flat_map (frame_peaks self spectrogram) (seq 0 (shape1 spectrogram)).

(** ** [RobustAudioFingerprinter.generate_hashes] *)

(** The (anchor, target) pairs in the order the two loops visit them. *)
Definition landmark_pairs (peaks : list peak) (fan_out : Z) : list (peak * peak) :=
  flat_map
    (fun ia : nat * peak =>
       let (i, anchor) := ia in
       flat_map
         (fun j => match nth_error peaks j with
                   | Some target => [(anchor, target)]
                   | None => []
                   end)
         (range (i + 1) (Z.min (Z.of_nat i + fan_out + 1) (Z.of_nat (length peaks)))))
    (enumerate peaks).

Definition hash_input (freq1 freq2 time_diff : Z) : string :=
  (str freq1 ++ "|" ++ str freq2 ++ "|" ++ str time_diff)%string.

Definition time_diff_of (p : peak * peak) : Z :=
  peak_time (snd p) - peak_time (fst p).

(** The body of the inner loop. *)
Definition fingerprint_of_pair (p : peak * peak) : AudioFingerprint :=
  let (anchor, target) := p in
  let freq1 := peak_freq anchor in
  let freq2 := peak_freq target in
  let time_diff := peak_time target - peak_time anchor in
  let hash_value := sha256_hexdigest_int (hash_input freq1 freq2 time_diff) mod 2 ^ 32 in
  {| hash_value := hash_value;
     track_id := None;
     time_offset := peak_time anchor;
     frequency_pair := (freq1, freq2) |}.

Definition generate_hashes (peaks : list peak) (fan_out : Z) : list AudioFingerprint :=
  map fingerprint_of_pair (landmark_pairs peaks fan_out).

(** [fp.track_id = track_id] *)
Definition set_track_id (tid : option string) (fp : AudioFingerprint) : AudioFingerprint :=
  {| hash_value := hash_value fp;
     track_id := tid;
     time_offset := time_offset fp;
     frequency_pair := frequency_pair fp |}.

(** ** The pipeline *)

Section Pipeline.

Context {L : Librosa}.

Definition preprocess_audio (self : RobustAudioFingerprinter) (audio : list Q)
  : M (list Q) :=
  if Nat.eqb (length audio) 0 then raise (ValueError "Empty audio input")
  else
    audio1 <- lift (librosa_normalize audio) ;;
    audio2 <- lift (librosa_trim audio1) ;;
    ret audio2.

Definition generate_spectrogram (self : RobustAudioFingerprinter) (audio : list Q)
  : M ndarray :=
  stft <- lift (librosa_stft_abs audio (n_fft self) (hop_length self)) ;;
  log_spectrogram <- lift (librosa_amplitude_to_db stft) ;;
  ret log_spectrogram.

(** The body of the [try] of [fingerprint_audio]. *)
Definition fingerprint_stages (self : RobustAudioFingerprinter) (audio : list Q)
  (tid : option string) : M (list AudioFingerprint) :=
  processed_audio <- preprocess_audio self audio ;;
  spectrogram <- generate_spectrogram self processed_audio ;;
  let peaks := find_peaks self spectrogram in
  let fingerprints := generate_hashes peaks 5 in
  ret (map (set_track_id tid) fingerprints).

Definition fingerprint_audio (self : RobustAudioFingerprinter) (audio : list Q)
  (tid : option string) : M (list AudioFingerprint) :=
  try_except
    (fingerprint_stages self audio tid)
    (fun e =>
       _ <- logger_error ("Fingerprinting failed: " ++ exn_str e)%string ;;
       ret []).

(** ** [parallel_fingerprint] *)

Definition process_file (file_path : string)
  : M (option (string * list AudioFingerprint)) :=
  try_except
    (let tid := fst (splitext (basename file_path)) in
     audio <- lift (librosa_load file_path 16000) ;;
     let fingerprinter := default_fingerprinter in
     fingerprints <- fingerprint_audio fingerprinter audio (Some tid) ;;
     ret (Some (tid, fingerprints)))
    (fun e =>
       _ <- logger_error
              ("Failed to process " ++ file_path ++ ": " ++ exn_str e)%string ;;
       ret None).

(** The dictionary comprehension over the results. *)
Definition merge_results (results : list (option (string * list AudioFingerprint)))
  : list (string * list AudioFingerprint) :=
  fold_left
    (fun d result =>
       match result with
       | Some (tid, fingerprints) => dict_set tid fingerprints d
       | None => d
       end)
    results [].

(** [multiprocessing.Pool(processes=processes)]: the constructor refuses a
    pool of fewer than one process. *)
Definition Pool (processes : Z) : M unit :=
  if processes <? 1 then raise (ValueError "Number of processes must be at least 1")
  else ret tt.

(** [pool.map(func, iterable)] for a [func] defined inside another function,
    of qualified name [qualname].  Every task is pickled on its way to a
    worker, and a function is pickled by its qualified name: a local function
    has none that can be looked up, the pickler raises [AttributeError], no
    worker gets a task, and [map] re-raises the error in the caller.  Only
    when there is no task to send does [map] return, with the empty list. *)
Definition pool_map_local {A B : Type} (qualname : string) (func : A -> M B)
  (iterable : list A) : M (list B) :=
  match iterable with
  | [] => ret []
  | _ :: _ => raise (OtherError ("Can't pickle local object '" ++ qualname ++ "'"))
  end.

(** [cpu_count] is the value of [multiprocessing.cpu_count()]. *)
Definition parallel_fingerprint (cpu_count : Z) (audio_files : list string)
  (num_processes : option Z) : M (list (string * list AudioFingerprint)) :=
  let num_processes :=
    match num_processes with
    | None => Z.max 1 (cpu_count - 1)
    | Some n => n
    end in
  _ <- Pool num_processes ;;
  results <- pool_map_local "parallel_fingerprint.<locals>.process_file"
               process_file audio_files ;;
  ret (merge_results results).

(** *** What one run amounts to *)

(** The outcome of the stages of [fingerprint_audio]; they write no log. *)
Definition stages_outcome (self : RobustAudioFingerprinter) (audio : list Q)
  (tid : option string) : outcome (list AudioFingerprint) :=
  fst (fingerprint_stages self audio tid []).

(** The value [fingerprint_audio] returns. *)
Definition fingerprints_of (self : RobustAudioFingerprinter) (audio : list Q)
  (tid : option string) : list AudioFingerprint :=
  match stages_outcome self audio tid with
  | Returned fingerprints => fingerprints
  | Raised _ => []
  end.

(** The records [fingerprint_audio] writes. *)
Definition fingerprint_log (self : RobustAudioFingerprinter) (audio : list Q)
  (tid : option string) : log :=
  match stages_outcome self audio tid with
  | Returned _ => []
  | Raised e => [("Fingerprinting failed: " ++ exn_str e)%string]
  end.

Definition track_id_of (file_path : string) : string :=
  fst (splitext (basename file_path)).

(** The value [process_file] returns. *)
Definition file_result (file_path : string)
  : option (string * list AudioFingerprint) :=
  match librosa_load file_path 16000 with
  | Returned audio =>
      Some (track_id_of file_path,
            fingerprints_of default_fingerprinter audio (Some (track_id_of file_path)))
  | Raised _ => None
  end.

(** The records written while one file is processed. *)
Definition file_log (file_path : string) : log :=
  match librosa_load file_path 16000 with
  | Returned audio =>
      fingerprint_log default_fingerprinter audio (Some (track_id_of file_path))
  | Raised e =>
      [("Failed to process " ++ file_path ++ ": " ++ exn_str e)%string]
  end.

End Pipeline.

(** ** [AudioFingerprintDatabase]: the [fingerprints] table *)

(** A row of [fingerprints]; [hash_value], [track_id] and [time_offset] form
    the primary key.  Rows are kept in the order of their insertion.  The
    columns hold what the annotations of [AudioFingerprint] and of the
    dictionary keys promise, integers that fit an INTEGER column and text:
    no key column is NULL. *)
Record fingerprint_row : Type := {
  row_hash_value : Z;
  row_track_id : string;
  row_time_offset : Z;
  row_freq1 : Z;
  row_freq2 : Z
}.

Definition same_key (r1 r2 : fingerprint_row) : bool :=
  (row_hash_value r1 =? row_hash_value r2)
  && String.eqb (row_track_id r1) (row_track_id r2)
  && (row_time_offset r1 =? row_time_offset r2).

(** [INSERT OR IGNORE INTO fingerprints ... VALUES (...)] *)
Definition insert_or_ignore (r : fingerprint_row) (table : list fingerprint_row)
  : list fingerprint_row :=
  if existsb (same_key r) table then table else table ++ [r].

Definition row_of (tid : string) (fp : AudioFingerprint) : fingerprint_row :=
  {| row_hash_value := hash_value fp;
     row_track_id := tid;
     row_time_offset := time_offset fp;
     row_freq1 := fst (frequency_pair fp);
     row_freq2 := snd (frequency_pair fp) |}.

Definition insert_fingerprints (table : list fingerprint_row)
  (fingerprints_dict : list (string * list AudioFingerprint)) : list fingerprint_row :=
  fold_left
    (fun tbl (entry : string * list AudioFingerprint) =>
       let (tid, fingerprints) := entry in
       fold_left (fun tbl' fp => insert_or_ignore (row_of tid fp) tbl') fingerprints tbl)
    fingerprints_dict table.

(** [SELECT track_id, time_offset FROM fingerprints WHERE hash_value = ?],
    rows taken in table order. *)
Definition select_by_hash (table : list fingerprint_row) (h : Z) : list (string * Z) :=
  map (fun r => (row_track_id r, row_time_offset r))
      (filter (fun r => row_hash_value r =? h) table).

(** ** [AudioFingerprintDatabase.match_fingerprint] *)

Section Matcher.

(** What [cursor.fetchall()] gives after the [SELECT] for a hash value.  The
    matcher is embedded for any such answer, so nothing below depends on the
    order in which the storage engine lists the rows. *)
Variable fetchall : Z -> list (string * Z).

(** The two statements that record one time difference in [track_matches]. *)
Definition record_match (track_matches : list (string * list Z)) (tid : string)
  (time_diff : Z) : list (string * list Z) :=
  let track_matches1 :=
    match dict_get tid track_matches with
    | None => dict_set tid [] track_matches
    | Some _ => track_matches
    end in
  match dict_get tid track_matches1 with
  | Some time_diffs => dict_set tid (time_diffs ++ [time_diff]) track_matches1
  | None => track_matches1
  end.

Definition collect_matches (sample_fingerprints : list AudioFingerprint)
  : list (string * list Z) :=
  fold_left
    (fun track_matches fp =>
       fold_left
         (fun tm (hit : string * Z) =>
            let (tid, db_time_offset) := hit in
            record_match tm tid (Z.abs (time_offset fp - db_time_offset)))
         (fetchall (hash_value fp)) track_matches)
    sample_fingerprints [].

Definition confidence_of (time_diffs : list Z) : Q :=
  let unique_matches := length (nodup Z.eq_dec time_diffs) in
  let total_matches := length time_diffs in
  (inject_Z (Z.of_nat total_matches)
   / inject_Z (Z.max 1 (Z.of_nat unique_matches)))%Q.

Definition match_results (track_matches : list (string * list Z)) (threshold : Z)
  : list (string * Q) :=
  flat_map
    (fun entry : string * list Z =>
       let (tid, time_diffs) := entry in
       if threshold <=? Z.of_nat (length time_diffs)
       then [(tid, confidence_of time_diffs)]
       else [])
    track_matches.

Definition match_fingerprint (sample_fingerprints : list AudioFingerprint)
  (threshold : Z) : list (string * Q) :=
  sorted_reverse snd (match_results (collect_matches sample_fingerprints) threshold).

(** *** The matcher as the specification words it *)

(** Every index hit of the query with its alignment delta, in scan order. *)
Definition spec_hits (sample_fingerprints : list AudioFingerprint) : list (string * Z) :=
  flat_map
    (fun fp =>
       map (fun hit : string * Z => (fst hit, Z.abs (time_offset fp - snd hit)))
           (fetchall (hash_value fp)))
    sample_fingerprints.

(** The deltas observed for one track. *)
Definition deltas_of (tid : string) (hits : list (string * Z)) : list Z :=
  map snd (filter (fun h => String.eqb tid (fst h)) hits).

Definition spec_total_matches (sample : list AudioFingerprint) (tid : string) : nat :=
  length (deltas_of tid (spec_hits sample)).

Definition spec_unique_deltas (sample : list AudioFingerprint) (tid : string) : nat :=
  length (nodup Z.eq_dec (deltas_of tid (spec_hits sample))).

Definition spec_confidence (sample : list AudioFingerprint) (tid : string) : Q :=
  (inject_Z (Z.of_nat (spec_total_matches sample tid))
   / inject_Z (Z.max 1 (Z.of_nat (spec_unique_deltas sample tid))))%Q.

End Matcher.

(** The distinct items of a list, in the order of their first occurrence. *)
Fixpoint first_seen (l : list string) : list string :=
  match l with
  | [] => []
  | x :: l' => x :: filter (fun y => negb (String.eqb x y)) (first_seen l')
  end.

(** The hits grouped by track, tracks in the order of their first hit. *)
Definition group_hits (hits : list (string * Z)) : list (string * list Z) :=
  map (fun tid => (tid, deltas_of tid hits)) (first_seen (map fst hits)).

(** The tracks that reach the threshold, in the order in which the scan first
    hit them, each with its confidence. *)
Definition spec_candidates (fetchall : Z -> list (string * Z))
  (sample : list AudioFingerprint) (threshold : Z) : list (string * Q) :=
  map (fun tid => (tid, spec_confidence fetchall sample tid))
      (filter (fun tid => threshold <=? Z.of_nat (spec_total_matches fetchall sample tid))
              (first_seen (map fst (spec_hits fetchall sample)))).

(** The order the specification asks of the result: confidence descending,
    equal confidences by ascending [track_id]. *)
Fixpoint spec_ordered (l : list (string * Q)) : bool :=
  match l with
  | [] => true
  | x :: l' =>
      match l' with
      | [] => true
      | y :: _ =>
          (Qlt_bool (snd y) (snd x)
           || (Qeq_bool (snd x) (snd y) && String.ltb (fst x) (fst y)))
          && spec_ordered l'
      end
  end.

(** ** The landmark pairing as the specification words it *)

(** The hash of a triple [(freq1, freq2, time_delta)]. *)
Definition landmark_hash (freq1 freq2 time_delta : Z) : Z :=
  sha256_hexdigest_int (hash_input freq1 freq2 time_delta) mod 2 ^ 32.

(** A peak moved by [k] frames. *)
Definition shift_peak (k : Z) (p : peak) : peak :=
  (peak_time p + k, peak_freq p, peak_mag p).

(** Each peak with the next [fan_out] peaks that follow it. *)
Fixpoint spec_pairs (peaks : list peak) (fan_out : Z) : list (peak * peak) :=
  match peaks with
  | [] => []
  | anchor :: rest =>
      map (fun target => (anchor, target)) (firstn (Z.to_nat fan_out) rest)
      ++ spec_pairs rest fan_out
  end.

(** ** The peak test as the specification words it *)

(** Bin [f] holds the strict maximum of its neighbourhood of five bins on
    either side. *)
Definition strict_local_max (frame : list Q) (f : nat) : Prop :=
  forall g : nat,
    (g < length frame)%nat -> (f - 5 <= g)%nat -> (g <= f + 5)%nat -> g <> f ->
    (nth g frame 0 < nth f frame 0)%Q.

(** Bin [f] holds a maximum of that neighbourhood. *)
Definition local_max (frame : list Q) (f : nat) : Prop :=
  forall g : nat,
    (g < length frame)%nat -> (f - 5 <= g)%nat -> (g <= f + 5)%nat ->
    (nth g frame 0 <= nth f frame 0)%Q.

(** ** A small instance of the collaborators, for the concrete examples *)

Definition example_load (path : string) : outcome (list Q) :=
  if String.eqb path "empty.wav" then Returned []
  else if String.eqb path "missing.wav" then Raised (OtherError "No such file")
  else if String.eqb path "live/x.wav" then Returned [0%Q; 0%Q; 0%Q]
  else Returned [0%Q; 0%Q].

(** One frequency bin; frame [t] holds sample [t]. *)
Definition example_stft (audio : list Q) : ndarray :=
  {| shape0 := 1; shape1 := length audio; item := fun _ t => nth t audio 0%Q |}.

Definition example_librosa : Librosa :=
  {| librosa_load := fun path _ => example_load path;
     librosa_normalize := fun audio => Returned audio;
     librosa_trim := fun audio => Returned audio;
     librosa_stft_abs := fun audio _ _ => Returned (example_stft audio);
     librosa_amplitude_to_db := fun s => Returned s |}.

(** A spectrogram given by its frames. *)
Definition ndarray_of_frames (bins : nat) (frames : list (list Q)) : ndarray :=
  {| shape0 := bins; shape1 := length frames;
     item := fun f t => nth f (nth t frames []) 0%Q |}.

(** Seven bins, two frames; bins 0 and 6 are the candidates of each frame. *)
Definition example_frames : ndarray :=
  ndarray_of_frames 7
    [ [(-1)%Q; (-50)%Q; (-50)%Q; (-50)%Q; (-50)%Q; (-50)%Q; 0%Q];
      [(-1)%Q; (-50)%Q; (-50)%Q; (-50)%Q; (-50)%Q; (-50)%Q; (-3)%Q] ].

(** A fingerprinter that keeps one peak per frame. *)
Definition cap_one : RobustAudioFingerprinter :=
  {| sample_rate := 16000; n_fft := 2048; hop_length := 512; max_peaks := 1 |}.

Definition query (h t : Z) : AudioFingerprint :=
  {| hash_value := h; track_id := None; time_offset := t; frequency_pair := (0, 0) |}.

(** * Further code: primary keys, track metadata, paths, configuration *)

(** ** [AudioFingerprintDatabase]: primary keys and the [tracks] table *)

(** The primary key of a row of [fingerprints]. *)
Definition row_key (r : fingerprint_row) : Z * string * Z :=
  (row_hash_value r, row_track_id r, row_time_offset r).

(** A row of [tracks]; [track_id] is the primary key, [artist], [album] and
    [duration] may be NULL. *)
Record track_row : Type := {
  tr_track_id : string;
  tr_filename : string;
  tr_artist : option string;
  tr_album : option string;
  tr_duration : option Q
}.

(** [INSERT OR REPLACE INTO tracks ...]: a stored row of the same [track_id]
    is deleted, then the new row is added. *)
Definition insert_track_metadata (tracks : list track_row) (tid filename : string)
  (artist album : option string) (duration : option Q) : list track_row :=
  filter (fun r => negb (String.eqb (tr_track_id r) tid)) tracks
  ++ [ {| tr_track_id := tid; tr_filename := filename; tr_artist := artist;
          tr_album := album; tr_duration := duration |} ].

(** The values of the dictionary [get_track_metadata] returns. *)
Inductive py_value : Type :=
| PyNone
| PyStr (s : string)
| PyFloat (x : Q).

Definition py_of_text (o : option string) : py_value :=
  match o with Some s => PyStr s | None => PyNone end.

Definition py_of_real (o : option Q) : py_value :=
  match o with Some x => PyFloat x | None => PyNone end.

(** [SELECT * FROM tracks WHERE track_id = ?], [fetchone], and
    [dict(zip(columns, result)) if result else {}]. *)
Definition get_track_metadata (tracks : list track_row) (tid : string)
  : list (string * py_value) :=
  match find (fun r => String.eqb (tr_track_id r) tid) tracks with
  | Some r =>
      [ ("track_id", PyStr (tr_track_id r));
        ("filename", PyStr (tr_filename r));
        ("artist", py_of_text (tr_artist r));
        ("album", py_of_text (tr_album r));
        ("duration", py_of_real (tr_duration r)) ]%string
  | None => []
  end.

(** ** Characters of a path *)

(** Whether [c] occurs in [s]. *)
Fixpoint contains (c : ascii) (s : string) : bool :=
  match s with
  | EmptyString => false
  | String a rest => Ascii.eqb a c || contains c rest
  end.

(** Whether [s] is made of the character [c] only. *)
Fixpoint all_chars (c : ascii) (s : string) : bool :=
  match s with
  | EmptyString => true
  | String a rest => Ascii.eqb a c && all_chars c rest
  end.

(** ** [ConfigManager] of [src/audio-fingerprinting-config.py]: nested
    configuration values *)

(** A value of the configuration that is neither [None] nor a [dict].  The
    code only asks of such a value that it is not a [dict]. *)
Inductive scalar : Type :=
| SInt (n : Z)
| SFloat (x : Q)
| SStr (s : string)
| SBool (b : bool).

(** A configuration value as YAML and the defaults give it; a [dict] has
    string keys and keeps its items in insertion order. *)
#[warnings="-register-all"]
Inductive config_value : Type :=
| CNone
| CScalar (v : scalar)
| CDict (items : list (string * config_value)).

(** [s.split(sep)] for a separator of one character. *)
Fixpoint split (sep : ascii) (s : string) : list string :=
  match s with
  | EmptyString => [EmptyString]
  | String a rest =>
      if Ascii.eqb a sep then EmptyString :: split sep rest
      else match split sep rest with
           | w :: ws => String a w :: ws
           | [] => [String a EmptyString]
           end
  end.

(** The loop of [ConfigManager.get] over the keys that are left. *)
Fixpoint get_from (value : config_value) (keys : list string) (default : config_value)
  : config_value :=
  match keys with
  | [] => value
  | k :: keys' =>
      match value with
      | CDict items =>
          match dict_get k items with
          | None | Some CNone => default
          | Some v => get_from v keys' default
          end
      | _ => default
      end
  end.

(** [ConfigManager.get(key, default)] on the configuration [config]. *)
Definition config_get (config : config_value) (key : string) (default : config_value)
  : config_value :=
  get_from config (split "." key) default.

(** The exceptions a merge can raise. *)
Inductive merge_error : Type :=
| AttributeError
| TypeError.

(** [deep_merge(base, update)].  The function changes [base] in place, so the
    result is the state of the object [base] when the call ends, with the
    exception if one was raised: what was merged before the exception stays
    merged, also inside a [dict] that [base] already held. *)
Fixpoint deep_merge (base update : config_value) {struct update}
  : config_value * option merge_error :=
  match update with
  | CDict items =>
      (fix merge_items (base : config_value) (items : list (string * config_value))
           {struct items} : config_value * option merge_error :=
         match items with
         | [] => (base, None)
         | (key, value) :: rest =>
             match value with
             | CDict _ =>
                 match base with
                 | CDict bitems =>
                     let sub := match dict_get key bitems with
                                | Some v => v
                                | None => CDict []
                                end in
                     match deep_merge sub value with
                     | (sub', None) => merge_items (CDict (dict_set key sub' bitems)) rest
                     | (sub', Some e) =>
                         (match dict_get key bitems with
                          | Some _ => CDict (dict_set key sub' bitems)
                          | None => base
                          end, Some e)
                     end
                 | _ => (base, Some AttributeError)
                 end
             | _ =>
                 match base with
                 | CDict bitems => merge_items (CDict (dict_set key value bitems)) rest
                 | _ => (base, Some TypeError)
                 end
             end
         end) base items
  | _ => (base, Some AttributeError)
  end.

(** One item of the loop of [deep_merge]. *)
Definition merge_item (base : config_value) (item : string * config_value)
  : config_value * option merge_error :=
  deep_merge base (CDict [item]).

(** The value found by following [keys] through nested dictionaries. *)
Fixpoint lookup_path (value : config_value) (keys : list string) : option config_value :=
  match keys with
  | [] => Some value
  | k :: keys' =>
      match value with
      | CDict items =>
          match dict_get k items with
          | Some v => lookup_path v keys'
          | None => None
          end
      | _ => None
      end
  end.

(** Every dictionary inside the value has distinct keys, as a Python [dict]
    does. *)
Fixpoint distinct_keys (value : config_value) : Prop :=
  match value with
  | CDict items =>
      NoDup (map fst items)
      /\ (fix all_distinct (l : list (string * config_value)) : Prop :=
            match l with
            | [] => True
            | (_, v) :: l' => distinct_keys v /\ all_distinct l'
            end) items
  | _ => True
  end.

(** The defaults of [_initialize] when the environment sets none of the
    variables. *)
Definition default_config : config_value :=
  CDict
    [ ("database",
       CDict [ ("path", CScalar (SStr "audio_fingerprints.db"));
               ("max_connections", CScalar (SInt 10)) ]);
      ("fingerprinting",
       CDict [ ("sample_rate", CScalar (SInt 16000));
               ("n_fft", CScalar (SInt 2048));
               ("hop_length", CScalar (SInt 512));
               ("max_peaks", CScalar (SInt 100)) ]);
      ("matching",
       CDict [ ("threshold", CScalar (SFloat 5));
               ("max_results", CScalar (SInt 10)) ]);
      ("logging",
       CDict [ ("level", CScalar (SStr "INFO"));
               ("file", CScalar (SStr "audio_fingerprinting.log")) ]) ]%string.

(** ** [ConfigManager._load_yaml_config] *)

(** Why a configuration file was passed over: opening or parsing it raised,
    or merging it did. *)
Inductive load_failure : Type :=
| ReadFailed (e : exn)
| MergeFailed (e : merge_error).

(** The paths tried, in order; [user_config] stands for the expansion of
    [~/.audio_fingerprint/config.yaml]. *)
Definition config_paths (user_config : string) : list string :=
  ["./config.yaml"; "./config.yml"; user_config]%string.

(** The loop over the paths.  [read path] is [None] when the path does not
    exist and otherwise what [open] and [yaml.safe_load] give.  The result is
    the configuration object after the loop, with the warnings logged, each
    with the path it names. *)
Fixpoint load_yaml_config (read : string -> option (outcome config_value))
  (config : config_value) (paths : list string)
  : config_value * list (string * load_failure) :=
  match paths with
  | [] => (config, [])
  | path :: paths' =>
      match read path with
      | None => load_yaml_config read config paths'
      | Some (Raised e) =>
          let (config', warnings) := load_yaml_config read config paths' in
          (config', (path, ReadFailed e) :: warnings)
      | Some (Returned yaml_config) =>
          match deep_merge config yaml_config with
          | (merged, None) => (merged, [])
          | (partly, Some e) =>
              let (config', warnings) := load_yaml_config read partly paths' in
              (config', (path, MergeFailed e) :: warnings)
          end
      end
  end.

(** * Properties *)

(** ** The embedded library functions on known values *)

Example sha256_empty :
  sha256_hexdigest_int ""
  = 0xe3b0c44298fc1c149afbf4c8996fb92427ae41e4649b934ca495991b7852b855.
Proof. vm_compute. reflexivity. Qed.

Example sha256_abc :
  sha256_hexdigest_int "abc"
  = 0xba7816bf8f01cfea414140de5dae2223b00361a396177a9cb410ff61f20015ad.
Proof. vm_compute. reflexivity. Qed.

Example sha256_two_blocks :
  sha256_hexdigest_int "abcdbcdecdefdefgefghfghighijhijkijkljklmklmnlmnomnopnopq"
  = 0x248d6a61d20638b8e5c026930c3e6039a33ce45964ff2167f6ecedd419db06c1.
Proof. vm_compute. reflexivity. Qed.

Example str_values : (str 0, str (-5), str 120) = ("0", "-5", "120")%string.
Proof. reflexivity. Qed.

Example hash_input_value : hash_input 3 7 0 = "3|7|0"%string.
Proof. reflexivity. Qed.

Example track_id_values :
  map track_id_of ["music/track1.mp3"; "a.b.c"; ".hidden"; "dir.d/file"; "x."]%string
  = ["track1"; "a.b"; ".hidden"; "file"; "x"]%string.
Proof. reflexivity. Qed.

(** ** The stable descending sort *)

Section SortFacts.

Context {A : Type} (key : A -> Q).

Lemma insert_desc_perm (x : A) (l : list A) :
  Permutation (insert_desc key x l) (x :: l).
Proof.
  induction l as [|y l IH]; simpl.
  - apply Permutation_refl.
  - destruct (Qle_bool (key y) (key x)).
    + apply Permutation_refl.
    + apply perm_trans with (y :: x :: l).
      * apply perm_skip, IH.
      * apply perm_swap.
Qed.

Lemma sorted_reverse_perm (l : list A) : Permutation (sorted_reverse key l) l.
Proof.
  induction l as [|x l IH]; simpl.
  - apply perm_nil.
  - apply perm_trans with (x :: sorted_reverse key l).
    + apply insert_desc_perm.
    + apply perm_skip, IH.
Qed.

Lemma sorted_reverse_In (x : A) (l : list A) :
  In x (sorted_reverse key l) <-> In x l.
Proof.
  split; apply Permutation_in.
  - apply sorted_reverse_perm.
  - apply Permutation_sym, sorted_reverse_perm.
Qed.

Lemma sorted_reverse_length (l : list A) :
  length (sorted_reverse key l) = length l.
Proof. apply Permutation_length, sorted_reverse_perm. Qed.

Lemma Qle_bool_false (x y : Q) : Qle_bool x y = false -> (y < x)%Q.
Proof.
  intros H. apply Qnot_le_lt. intros Hle.
  apply Qle_bool_iff in Hle. congruence.
Qed.

Lemma insert_desc_sorted (x : A) (l : list A) :
  StronglySorted (fun a b => (key b <= key a)%Q) l ->
  StronglySorted (fun a b => (key b <= key a)%Q) (insert_desc key x l).
Proof.
  induction 1 as [|y l Hs IH Hall]; simpl.
  - constructor; constructor.
  - destruct (Qle_bool (key y) (key x)) eqn:E.
    + apply Qle_bool_iff in E.
      constructor.
      * constructor; assumption.
      * constructor; [assumption|].
        rewrite Forall_forall in *. intros z Hz.
        apply Qle_trans with (key y); auto.
    + apply Qle_bool_false in E.
      constructor; [assumption|].
      rewrite Forall_forall in *. intros z Hz.
      apply (Permutation_in _ (insert_desc_perm x l)) in Hz.
      destruct Hz as [<-|Hz]; [apply Qlt_le_weak; assumption | auto].
Qed.

Lemma sorted_reverse_sorted (l : list A) :
  StronglySorted (fun a b => (key b <= key a)%Q) (sorted_reverse key l).
Proof.
  induction l as [|x l IH]; simpl.
  - constructor.
  - apply insert_desc_sorted, IH.
Qed.

(** Stability: the items of one key value keep their relative order. *)
Lemma insert_desc_stable (c : Q) (x : A) (l : list A) :
  filter (fun y => Qeq_bool (key y) c) (insert_desc key x l)
  = filter (fun y => Qeq_bool (key y) c) (x :: l).
Proof.
  induction l as [|y l IH]; [reflexivity|].
  cbn [insert_desc].
  destruct (Qle_bool (key y) (key x)) eqn:E; [reflexivity|].
  apply Qle_bool_false in E.
  cbn [filter] in *. rewrite IH.
  destruct (Qeq_bool (key x) c) eqn:Ex; [|reflexivity].
  destruct (Qeq_bool (key y) c) eqn:Ey; [|reflexivity].
  apply Qeq_bool_iff in Ex, Ey.
  rewrite Ex, Ey in E. exfalso. revert E. apply Qlt_irrefl.
Qed.

Lemma sorted_reverse_stable (c : Q) (l : list A) :
  filter (fun y => Qeq_bool (key y) c) (sorted_reverse key l)
  = filter (fun y => Qeq_bool (key y) c) l.
Proof.
  induction l as [|x l IH]; [reflexivity|].
  cbn [sorted_reverse fold_right].
  rewrite insert_desc_stable. cbn [filter].
  fold (sorted_reverse key l). rewrite IH. reflexivity.
Qed.

(** A descending list is determined by the order inside each class of equal
    keys: any stable sort computes [sorted_reverse]. *)
Lemma stable_sort_unique (l1 l2 : list A) :
  StronglySorted (fun a b => (key b <= key a)%Q) l1 ->
  StronglySorted (fun a b => (key b <= key a)%Q) l2 ->
  (forall c : Q,
      filter (fun y => Qeq_bool (key y) c) l1 = filter (fun y => Qeq_bool (key y) c) l2) ->
  l1 = l2.
Proof.
  intros H1. revert l2. induction H1 as [|x l1 Hs1 IH Hall1]; intros l2 H2 Hf.
  - specialize (Hf (match l2 with [] => 0%Q | y :: _ => key y end)).
    destruct l2 as [|y l2]; [reflexivity|].
    simpl in Hf. rewrite Qeq_bool_refl in Hf. discriminate.
  - destruct H2 as [|y l2 Hs2 Hall2].
    + specialize (Hf (key x)). simpl in Hf. rewrite Qeq_bool_refl in Hf. discriminate.
    + rewrite Forall_forall in Hall1, Hall2.
      assert (Hxy : (key x == key y)%Q).
      { apply Qle_antisym.
        - pose proof (Hf (key x)) as E. cbn [filter] in E.
          rewrite Qeq_bool_refl in E.
          assert (Hin : In x (filter (fun z => Qeq_bool (key z) (key x)) (y :: l2)))
            by (cbn [filter]; rewrite <- E; left; reflexivity).
          apply filter_In in Hin. destruct Hin as [[<-|Hin] _];
            [apply Qle_refl | apply Hall2; exact Hin].
        - pose proof (Hf (key y)) as E. cbn [filter] in E.
          rewrite (Qeq_bool_refl (key y)) in E.
          assert (Hin : In y (filter (fun z => Qeq_bool (key z) (key y)) (x :: l1)))
            by (cbn [filter]; rewrite E; left; reflexivity).
          apply filter_In in Hin. destruct Hin as [[<-|Hin] _];
            [apply Qle_refl | apply Hall1; exact Hin]. }
      assert (Hhead : x = y).
      { pose proof (Hf (key x)) as E. cbn [filter] in E.
        rewrite Qeq_bool_refl in E.
        replace (Qeq_bool (key y) (key x)) with true in E
          by (symmetry; apply Qeq_bool_iff; symmetry; exact Hxy).
        congruence. }
      subst y. f_equal. apply IH; [exact Hs2|].
      intros c. specialize (Hf c). cbn [filter] in Hf.
      destruct (Qeq_bool (key x) c); congruence.
Qed.

End SortFacts.

(** ** Dictionaries *)

Lemma dict_get_set {V : Type} (k k' : string) (v : V) (d : list (string * V)) :
  dict_get k (dict_set k' v d) = if String.eqb k k' then Some v else dict_get k d.
Proof.
  induction d as [|[k0 v0] d IH]; simpl.
  - destruct (String.eqb k k'); reflexivity.
  - destruct (String.eqb k' k0) eqn:E0; simpl.
    + apply String.eqb_eq in E0. subst k0.
      destruct (String.eqb k k'); reflexivity.
    + rewrite IH. destruct (String.eqb k k0) eqn:E1; [|reflexivity].
      apply String.eqb_eq in E1. subst k0.
      destruct (String.eqb k k') eqn:E2; [|reflexivity].
      apply String.eqb_eq in E2. subst k'.
      rewrite String.eqb_refl in E0. discriminate.
Qed.

Lemma dict_set_set {V : Type} (k : string) (v v0 : V) (d : list (string * V)) :
  dict_set k v (dict_set k v0 d) = dict_set k v d.
Proof.
  induction d as [|[k0 v1] d IH]; simpl.
  - rewrite String.eqb_refl. reflexivity.
  - destruct (String.eqb k k0) eqn:E; simpl; rewrite E; [reflexivity|].
    rewrite IH. reflexivity.
Qed.


Lemma dict_get_In {V : Type} (k : string) (d : list (string * V)) :
  In k (map fst d) <-> exists v, dict_get k d = Some v.
Proof.
  induction d as [|[k0 v0] d IH]; simpl.
  - split; [tauto | intros [v H]; discriminate].
  - destruct (String.eqb k k0) eqn:E.
    + apply String.eqb_eq in E. subst. split; eauto.
    + apply String.eqb_neq in E. rewrite <- IH. split.
      * intros [H|H]; [congruence | assumption].
      * auto.
Qed.

Lemma dict_get_tabulate {V : Type} (f : string -> V) (k : string) (keys : list string) :
  dict_get k (map (fun x => (x, f x)) keys)
  = if existsb (String.eqb k) keys then Some (f k) else None.
Proof.
  induction keys as [|x keys IH]; simpl; [reflexivity|].
  destruct (String.eqb k x) eqn:E; simpl; [|exact IH].
  apply String.eqb_eq in E. subst. reflexivity.
Qed.

Lemma existsb_eqb_In (k : string) (keys : list string) :
  existsb (String.eqb k) keys = true <-> In k keys.
Proof.
  rewrite existsb_exists. split.
  - intros [x [Hx E]]. apply String.eqb_eq in E. subst. assumption.
  - intros H. exists k. split; [assumption | apply String.eqb_refl].
Qed.

Lemma dict_set_tabulate_new {V : Type} (f : string -> V) (k : string) (v : V)
  (keys : list string) :
  ~ In k keys ->
  dict_set k v (map (fun x => (x, f x)) keys) = map (fun x => (x, f x)) keys ++ [(k, v)].
Proof.
  induction keys as [|x keys IH]; simpl; intros H; [reflexivity|].
  destruct (String.eqb k x) eqn:E.
  - apply String.eqb_eq in E. subst. tauto.
  - rewrite IH by tauto. reflexivity.
Qed.

Lemma dict_set_tabulate_old {V : Type} (f : string -> V) (k : string) (v : V)
  (keys : list string) :
  NoDup keys -> In k keys ->
  dict_set k v (map (fun x => (x, f x)) keys)
  = map (fun x => (x, if String.eqb x k then v else f x)) keys.
Proof.
  induction 1 as [|x keys Hx Hnd IH]; simpl; intros Hin; [tauto|].
  destruct (String.eqb k x) eqn:E.
  - apply String.eqb_eq in E. subst x. rewrite String.eqb_refl. f_equal.
    apply map_ext_in. intros y Hy.
    destruct (String.eqb y k) eqn:E'; [|reflexivity].
    apply String.eqb_eq in E'. subst. contradiction.
  - rewrite String.eqb_sym, E. f_equal. apply IH.
    destruct Hin as [->|Hin]; [|assumption].
    rewrite String.eqb_refl in E. discriminate.
Qed.

(** ** Distinct items in first-occurrence order *)

Lemma first_seen_In (x : string) (l : list string) :
  In x (first_seen l) <-> In x l.
Proof.
  induction l as [|y l IH]; simpl; [tauto|].
  rewrite filter_In, IH. split.
  - intros [H|[H _]]; auto.
  - intros [H|H]; [auto|].
    destruct (String.eqb y x) eqn:E.
    + apply String.eqb_eq in E. auto.
    + right. auto.
Qed.

Lemma first_seen_NoDup (l : list string) : NoDup (first_seen l).
Proof.
  induction l as [|y l IH]; simpl; constructor.
  - rewrite filter_In. intros [_ H]. rewrite String.eqb_refl in H. discriminate.
  - apply NoDup_filter, IH.
Qed.

Lemma first_seen_snoc (l : list string) (y : string) :
  first_seen (l ++ [y])
  = if existsb (String.eqb y) l then first_seen l else first_seen l ++ [y].
Proof.
  induction l as [|x l IH]; simpl; [reflexivity|].
  rewrite IH. destruct (String.eqb y x) eqn:E; simpl.
  - destruct (existsb (String.eqb y) l); [reflexivity|].
    rewrite filter_app. simpl. rewrite String.eqb_sym, E. simpl.
    rewrite app_nil_r. reflexivity.
  - destruct (existsb (String.eqb y) l); [reflexivity|].
    rewrite filter_app. simpl. rewrite String.eqb_sym, E. reflexivity.
Qed.

(** ** The scan of the matcher groups the hits by track *)

Lemma deltas_of_snoc (tid : string) (hits : list (string * Z)) (h : string * Z) :
  deltas_of tid (hits ++ [h])
  = deltas_of tid hits ++ (if String.eqb tid (fst h) then [snd h] else []).
Proof.
  unfold deltas_of. rewrite filter_app, map_app. simpl.
  destruct (String.eqb tid (fst h)); reflexivity.
Qed.

Lemma deltas_of_absent (tid : string) (hits : list (string * Z)) :
  ~ In tid (map fst hits) -> deltas_of tid hits = [].
Proof.
  unfold deltas_of. induction hits as [|h hits IH]; simpl; intros H; [reflexivity|].
  destruct (String.eqb tid (fst h)) eqn:E.
  - apply String.eqb_eq in E. subst. tauto.
  - apply IH. tauto.
Qed.

Lemma deltas_of_length_pos (tid : string) (hits : list (string * Z)) :
  In tid (map fst hits) <-> (0 < length (deltas_of tid hits))%nat.
Proof.
  unfold deltas_of. induction hits as [|h hits IH]; simpl; [lia|].
  destruct (String.eqb tid (fst h)) eqn:E; simpl.
  - apply String.eqb_eq in E. split; [lia | auto].
  - apply String.eqb_neq in E. rewrite <- IH. split.
    + intros [H|H]; [congruence | assumption].
    + auto.
Qed.

Lemma group_hits_snoc (hits : list (string * Z)) (tid : string) (d : Z) :
  group_hits (hits ++ [(tid, d)]) = record_match (group_hits hits) tid d.
Proof.
  unfold group_hits, record_match.
  rewrite map_app. simpl map at 1. rewrite first_seen_snoc.
  rewrite (dict_get_tabulate (fun x => deltas_of x hits)).
  assert (Hk : existsb (String.eqb tid) (first_seen (map fst hits))
               = existsb (String.eqb tid) (map fst hits)).
  { apply eq_true_iff_eq. rewrite !existsb_eqb_In. apply first_seen_In. }
  rewrite Hk.
  destruct (existsb (String.eqb tid) (map fst hits)) eqn:E; cbv iota.
  - rewrite (dict_get_tabulate (fun x => deltas_of x hits)), Hk.
    rewrite dict_set_tabulate_old.
    + apply map_ext. intros x. rewrite deltas_of_snoc. simpl.
      rewrite (String.eqb_sym x tid).
      destruct (String.eqb tid x) eqn:Ex.
      * apply String.eqb_eq in Ex. subst. reflexivity.
      * rewrite app_nil_r. reflexivity.
    + apply first_seen_NoDup.
    + apply first_seen_In, existsb_eqb_In. assumption.
  - assert (Hn : ~ In tid (map fst hits)).
    { intros H. apply existsb_eqb_In in H. congruence. }
    rewrite dict_get_set, String.eqb_refl, dict_set_set.
    rewrite (dict_set_tabulate_new (fun x => deltas_of x hits))
      by (rewrite first_seen_In; assumption).
    rewrite map_app. simpl. rewrite deltas_of_snoc. simpl.
    rewrite String.eqb_refl, (deltas_of_absent tid hits Hn). f_equal.
    apply map_ext_in. intros x Hx. rewrite deltas_of_snoc. simpl.
    destruct (String.eqb x tid) eqn:Ex; [|rewrite app_nil_r; reflexivity].
    apply String.eqb_eq in Ex. subst. exfalso. apply Hn, first_seen_In, Hx.
Qed.

Lemma collect_matches_fold (fetchall : Z -> list (string * Z))
  (sample : list AudioFingerprint) (tm : list (string * list Z)) :
  fold_left
    (fun track_matches fp =>
       fold_left
         (fun tm (hit : string * Z) =>
            let (tid, db_time_offset) := hit in
            record_match tm tid (Z.abs (time_offset fp - db_time_offset)))
         (fetchall (hash_value fp)) track_matches)
    sample tm
  = fold_left (fun tm h => record_match tm (fst h) (snd h)) (spec_hits fetchall sample) tm.
Proof.
  revert tm. induction sample as [|fp sample IH]; intros tm; [reflexivity|].
  cbn [fold_left spec_hits flat_map]. rewrite IH, fold_left_app. f_equal.
  generalize (fetchall (hash_value fp)). intros l. revert tm.
  induction l as [|[tid off] l IHl]; intros tm; [reflexivity|].
  cbn [fold_left map fst snd]. apply IHl.
Qed.

(** The dictionary built by the scan is the grouping of the hits. *)
Lemma collect_matches_spec (fetchall : Z -> list (string * Z))
  (sample : list AudioFingerprint) :
  collect_matches fetchall sample = group_hits (spec_hits fetchall sample).
Proof.
  unfold collect_matches. rewrite collect_matches_fold.
  generalize (spec_hits fetchall sample). intros hits.
  change (@nil (string * list Z)) with (group_hits []).
  rewrite <- (app_nil_l hits) at 2. generalize (@nil (string * Z)) as done.
  induction hits as [|[tid d] hits IH]; intros done; simpl.
  - rewrite app_nil_r. reflexivity.
  - rewrite <- group_hits_snoc, IH, <- app_assoc. reflexivity.
Qed.

Lemma match_results_spec (fetchall : Z -> list (string * Z))
  (sample : list AudioFingerprint) (threshold : Z) :
  match_results (collect_matches fetchall sample) threshold
  = spec_candidates fetchall sample threshold.
Proof.
  rewrite collect_matches_spec.
  unfold match_results, spec_candidates, group_hits, spec_confidence,
    spec_total_matches, spec_unique_deltas, confidence_of.
  induction (first_seen (map fst (spec_hits fetchall sample))) as [|k keys IH];
    [reflexivity|].
  cbn [map flat_map filter]. rewrite IH.
  destruct (threshold <=? Z.of_nat (length (deltas_of k (spec_hits fetchall sample))));
    reflexivity.
Qed.

Lemma match_fingerprint_spec (fetchall : Z -> list (string * Z))
  (sample : list AudioFingerprint) (threshold : Z) :
  match_fingerprint fetchall sample threshold
  = sorted_reverse snd (spec_candidates fetchall sample threshold).
Proof. unfold match_fingerprint. rewrite match_results_spec. reflexivity. Qed.

Lemma spec_candidates_In (fetchall : Z -> list (string * Z))
  (sample : list AudioFingerprint) (threshold : Z) (tid : string) (c : Q) :
  In (tid, c) (spec_candidates fetchall sample threshold)
  <-> (0 < spec_total_matches fetchall sample tid)%nat
      /\ threshold <= Z.of_nat (spec_total_matches fetchall sample tid)
      /\ c = spec_confidence fetchall sample tid.
Proof.
  unfold spec_candidates. rewrite in_map_iff. split.
  - intros [k [Hk Hin]]. inversion Hk; subst. clear Hk.
    apply filter_In in Hin. destruct Hin as [Hin Hthr].
    apply first_seen_In, deltas_of_length_pos in Hin.
    apply Z.leb_le in Hthr. auto.
  - intros [Hpos [Hthr ->]]. exists tid. split; [reflexivity|].
    apply filter_In. split.
    + apply first_seen_In, deltas_of_length_pos. exact Hpos.
    + apply Z.leb_le. exact Hthr.
Qed.

Lemma spec_candidates_keys_NoDup (fetchall : Z -> list (string * Z))
  (sample : list AudioFingerprint) (threshold : Z) :
  NoDup (map fst (spec_candidates fetchall sample threshold)).
Proof.
  unfold spec_candidates. rewrite map_map. simpl. rewrite map_id.
  apply NoDup_filter, first_seen_NoDup.
Qed.

Lemma nodup_length_bounds (l : list Z) :
  l <> [] -> (1 <= length (nodup Z.eq_dec l) <= length l)%nat.
Proof.
  intros Hne. split.
  - destruct l as [|x l]; [congruence|].
    assert (H : In x (nodup Z.eq_dec (x :: l))) by (apply nodup_In; left; reflexivity).
    destruct (nodup Z.eq_dec (x :: l)); [destruct H | simpl; lia].
  - apply NoDup_incl_length.
    + apply NoDup_nodup.
    + intros y Hy. apply nodup_In in Hy. exact Hy.
Qed.

Lemma confidence_of_ge_1 (time_diffs : list Z) :
  time_diffs <> [] -> (1 <= confidence_of time_diffs)%Q.
Proof.
  intros Hne. destruct (nodup_length_bounds time_diffs Hne) as [Hlo Hhi].
  unfold confidence_of. apply Qle_shift_div_l.
  - change 0%Q with (inject_Z 0). rewrite <- Zlt_Qlt. lia.
  - rewrite Qmult_1_l, <- Zle_Qle. lia.
Qed.

Lemma group_hits_nonempty (hits : list (string * Z)) :
  Forall (fun e : string * list Z => snd e <> []) (group_hits hits).
Proof.
  unfold group_hits. rewrite Forall_forall. intros e He.
  apply in_map_iff in He. destruct He as [k [<- Hk]]. simpl.
  apply first_seen_In, deltas_of_length_pos in Hk.
  intros E. rewrite E in Hk. simpl in Hk. lia.
Qed.

Lemma match_results_In (tm : list (string * list Z)) (threshold : Z)
  (r : string * Q) :
  In r (match_results tm threshold) ->
  exists time_diffs, In (fst r, time_diffs) tm /\ snd r = confidence_of time_diffs.
Proof.
  unfold match_results. rewrite in_flat_map. intros [[tid diffs] [Hin Hr]].
  destruct (threshold <=? Z.of_nat (length diffs)); [|destruct Hr].
  destruct Hr as [<-|[]]. exists diffs. auto.
Qed.

(** C1 (amended).  [match_fingerprint] returns exactly the tracks hit at least
    once whose [total_matches] reaches [threshold] (so a total equal to the
    threshold is kept and one below it is dropped), each once and paired with
    [total_matches / max(1, unique_deltas)]; the result is ordered by
    confidence descending, and tracks of equal confidence stay in the order in
    which the scan first hit them. *)
Theorem match_fingerprint_threshold_and_order (fetchall : Z -> list (string * Z))
  (sample : list AudioFingerprint) (threshold : Z) :
  (forall (tid : string) (c : Q),
      In (tid, c) (match_fingerprint fetchall sample threshold)
      <-> (0 < spec_total_matches fetchall sample tid)%nat
          /\ threshold <= Z.of_nat (spec_total_matches fetchall sample tid)
          /\ c = spec_confidence fetchall sample tid)
  /\ NoDup (map fst (match_fingerprint fetchall sample threshold))
  /\ StronglySorted (fun x y : string * Q => (snd y <= snd x)%Q)
       (match_fingerprint fetchall sample threshold)
  /\ (forall c : Q,
        filter (fun x : string * Q => Qeq_bool (snd x) c)
          (match_fingerprint fetchall sample threshold)
        = filter (fun x : string * Q => Qeq_bool (snd x) c)
            (spec_candidates fetchall sample threshold)).
Proof.
  rewrite match_fingerprint_spec.
  split; [|split; [|split]].
  - intros tid c. rewrite sorted_reverse_In. apply spec_candidates_In.
  - apply (Permutation_NoDup (l := map fst (spec_candidates fetchall sample threshold))).
    + apply Permutation_map, Permutation_sym, sorted_reverse_perm.
    + apply spec_candidates_keys_NoDup.
  - apply sorted_reverse_sorted.
  - intros c. apply sorted_reverse_stable.
Qed.

(** C1, as stated, fails: two tracks of equal confidence come out in the
    order of their first hit, here "b" before "a". *)
Lemma match_fingerprint_ties_not_by_track_id :
  let db := insert_fingerprints [] [("b"%string, [query 10 0]); ("a"%string, [query 20 0])] in
  let result := match_fingerprint (select_by_hash db) [query 10 3; query 20 3] 1 in
  result = [("b"%string, 1%Q); ("a"%string, 1%Q)] /\ spec_ordered result = false.
Proof. vm_compute. split; reflexivity. Qed.

(** C10.  In the dictionary of the scan every track has at least one and at
    most [total_matches] distinct deltas, and every confidence returned by
    [match_fingerprint] is at least 1. *)
Theorem match_fingerprint_confidence_at_least_1 (fetchall : Z -> list (string * Z))
  (sample : list AudioFingerprint) (threshold : Z) :
  Forall (fun e : string * list Z =>
            (1 <= length (nodup Z.eq_dec (snd e)) <= length (snd e))%nat)
         (collect_matches fetchall sample)
  /\ Forall (fun r : string * Q => (1 <= snd r)%Q)
            (match_fingerprint fetchall sample threshold).
Proof.
  pose proof (group_hits_nonempty (spec_hits fetchall sample)) as Hne.
  rewrite <- collect_matches_spec in Hne. rewrite Forall_forall in Hne.
  split; rewrite Forall_forall.
  - intros e He. apply nodup_length_bounds. apply (Hne e He).
  - intros r Hr. apply sorted_reverse_In, match_results_In in Hr.
    destruct Hr as [diffs [Hin ->]].
    apply confidence_of_ge_1. apply (Hne _ Hin).
Qed.

(** ** Ingestion *)

Lemma same_key_refl (r : fingerprint_row) : same_key r r = true.
Proof. unfold same_key. rewrite !Z.eqb_refl, String.eqb_refl. reflexivity. Qed.

Lemma insert_or_ignore_present (r : fingerprint_row) (table : list fingerprint_row) :
  existsb (same_key r) table = true -> insert_or_ignore r table = table.
Proof. unfold insert_or_ignore. intros ->. reflexivity. Qed.

Lemma insert_or_ignore_keeps (r r' : fingerprint_row) (table : list fingerprint_row) :
  existsb (same_key r') table = true ->
  existsb (same_key r') (insert_or_ignore r table) = true.
Proof.
  unfold insert_or_ignore. intros H.
  destruct (existsb (same_key r) table); [assumption|].
  rewrite existsb_app, H. reflexivity.
Qed.

Lemma insert_or_ignore_has (r : fingerprint_row) (table : list fingerprint_row) :
  existsb (same_key r) (insert_or_ignore r table) = true.
Proof.
  unfold insert_or_ignore.
  destruct (existsb (same_key r) table) eqn:E; [assumption|].
  rewrite existsb_app. simpl. rewrite same_key_refl, orb_true_r. reflexivity.
Qed.

(** The rows sent to the table by one call, in order. *)
Lemma insert_fingerprints_rows (table : list fingerprint_row)
  (fingerprints_dict : list (string * list AudioFingerprint)) :
  insert_fingerprints table fingerprints_dict
  = fold_left (fun tbl r => insert_or_ignore r tbl)
      (flat_map (fun entry : string * list AudioFingerprint =>
                   map (row_of (fst entry)) (snd entry)) fingerprints_dict)
      table.
Proof.
  unfold insert_fingerprints. revert table.
  induction fingerprints_dict as [|[tid fps] d IH]; intros table; [reflexivity|].
  cbn [fold_left flat_map fst snd]. rewrite IH, fold_left_app. f_equal.
  clear IH. revert table. induction fps as [|fp fps IHf]; intros table; [reflexivity|].
  cbn [fold_left map]. apply IHf.
Qed.

Lemma insert_rows_keeps (rows : list fingerprint_row) (r' : fingerprint_row)
  (table : list fingerprint_row) :
  existsb (same_key r') table = true ->
  existsb (same_key r')
    (fold_left (fun tbl r => insert_or_ignore r tbl) rows table) = true.
Proof.
  revert table. induction rows as [|r rows IH]; intros table H; [assumption|].
  cbn [fold_left]. apply IH, insert_or_ignore_keeps, H.
Qed.

Lemma insert_rows_has (rows : list fingerprint_row) (table : list fingerprint_row) :
  Forall (fun r => existsb (same_key r)
                     (fold_left (fun tbl r0 => insert_or_ignore r0 tbl) rows table) = true)
         rows.
Proof.
  revert table. induction rows as [|r rows IH]; intros table; constructor.
  - cbn [fold_left]. apply insert_rows_keeps, insert_or_ignore_has.
  - cbn [fold_left]. apply IH.
Qed.

Lemma insert_rows_all_present (rows : list fingerprint_row)
  (table : list fingerprint_row) :
  Forall (fun r => existsb (same_key r) table = true) rows ->
  fold_left (fun tbl r => insert_or_ignore r tbl) rows table = table.
Proof.
  induction 1 as [|r rows Hr Hall IH]; [reflexivity|].
  cbn [fold_left]. rewrite insert_or_ignore_present by assumption. exact IH.
Qed.

(** C5.  Inserting the same fingerprints a second time leaves the table as the
    first insertion left it, and a row whose (hash_value, track_id,
    time_offset) is already stored is ignored whatever its other columns. *)
Theorem insert_fingerprints_idempotent (table : list fingerprint_row) :
  (forall fingerprints_dict : list (string * list AudioFingerprint),
      insert_fingerprints (insert_fingerprints table fingerprints_dict) fingerprints_dict
      = insert_fingerprints table fingerprints_dict)
  /\ (forall (tid : string) (fingerprints : list AudioFingerprint),
        insert_fingerprints (insert_fingerprints table [(tid, fingerprints)])
          [(tid, fingerprints)]
        = insert_fingerprints table [(tid, fingerprints)])
  /\ (forall r : fingerprint_row,
        existsb (same_key r) table = true -> insert_or_ignore r table = table).
Proof.
  assert (H : forall d, insert_fingerprints (insert_fingerprints table d) d
                        = insert_fingerprints table d).
  { intros d. rewrite (insert_fingerprints_rows (insert_fingerprints table d)).
    apply insert_rows_all_present.
    rewrite (insert_fingerprints_rows table). apply insert_rows_has. }
  split; [exact H | split].
  - intros tid fps. apply H.
  - intros r. apply insert_or_ignore_present.
Qed.

Lemma insert_fingerprints_idempotent_example :
  let fps := [query 10 0; query 10 0; query 20 4] in
  let table := insert_fingerprints [] [("t"%string, fps)] in
  length table = 2%nat
  /\ insert_fingerprints table [("t"%string, fps)] = table
  /\ insert_or_ignore (row_of "t" (query 10 0)) table = table.
Proof.
  intros fps table.
  destruct (insert_fingerprints_idempotent []) as [_ [H2 _]].
  destruct (insert_fingerprints_idempotent table) as [_ [_ H3]].
  split; [reflexivity | split].
  - apply H2.
  - apply H3. reflexivity.
Defined.

(** ** Landmark pairing *)

Lemma targets_from (anchor : peak) (pre rest : list peak) (n : nat) :
  flat_map
    (fun j => match nth_error (pre ++ rest) j with
              | Some target => [(anchor, target)]
              | None => []
              end)
    (seq (length pre) n)
  = map (fun target => (anchor, target)) (firstn n rest).
Proof.
  revert pre n. induction rest as [|x rest IH]; intros pre n.
  - rewrite firstn_nil, app_nil_r. simpl.
    generalize (Nat.le_refl (length pre)). generalize (length pre) at 2 3 as s.
    induction n as [|n IHn]; intros s Hs; [reflexivity|].
    cbn [seq flat_map].
    assert (E : nth_error pre s = None) by (apply nth_error_None; exact Hs).
    rewrite E. simpl. apply IHn. lia.
  - destruct n as [|n]; [reflexivity|].
    cbn [seq flat_map firstn map].
    rewrite nth_error_app2 by lia. rewrite Nat.sub_diag. cbn [nth_error app].
    f_equal.
    specialize (IH (pre ++ [x]) n).
    rewrite <- app_assoc, length_app in IH. cbn [app length] in IH.
    rewrite Nat.add_1_r in IH. exact IH.
Qed.

Lemma firstn_clip {A : Type} (n : nat) (l : list A) :
  firstn (Nat.min n (length l)) l = firstn n l.
Proof.
  destruct (Nat.le_gt_cases n (length l)) as [H|H].
  - rewrite Nat.min_l by exact H. reflexivity.
  - rewrite Nat.min_r by lia. rewrite !firstn_all2 by lia. reflexivity.
Qed.

Lemma landmark_pairs_from (fan_out : Z) (pre suf : list peak) :
  flat_map
    (fun ia : nat * peak =>
       let (i, anchor) := ia in
       flat_map
         (fun j => match nth_error (pre ++ suf) j with
                   | Some target => [(anchor, target)]
                   | None => []
                   end)
         (range (i + 1)
            (Z.min (Z.of_nat i + fan_out + 1) (Z.of_nat (length (pre ++ suf))))))
    (combine (seq (length pre) (length suf)) suf)
  = spec_pairs suf fan_out.
Proof.
  revert pre. induction suf as [|a rest IH]; intros pre; [reflexivity|].
  cbn [length seq combine flat_map spec_pairs]. f_equal.
  - unfold range.
    replace (pre ++ a :: rest) with ((pre ++ [a]) ++ rest)
      by (rewrite <- app_assoc; reflexivity).
    replace (length pre + 1)%nat with (length (pre ++ [a]))
      by (rewrite length_app; reflexivity).
    rewrite targets_from. rewrite <- (firstn_clip (Z.to_nat fan_out)).
    f_equal. f_equal. rewrite !length_app. cbn [length]. lia.
  - specialize (IH (pre ++ [a])).
    rewrite <- app_assoc in IH. cbn [app] in IH.
    replace (length (pre ++ [a])) with (S (length pre)) in IH
      by (rewrite length_app; simpl; lia).
    exact IH.
Qed.

Lemma landmark_pairs_spec (peaks : list peak) (fan_out : Z) :
  landmark_pairs peaks fan_out = spec_pairs peaks fan_out.
Proof. apply (landmark_pairs_from fan_out [] peaks). Qed.

Lemma In_enumerate_from {A : Type} (s i : nat) (x : A) (l : list A) :
  In (i, x) (combine (seq s (length l)) l)
  <-> (s <= i)%nat /\ nth_error l (i - s) = Some x.
Proof.
  revert s. induction l as [|y l IH]; intros s.
  - simpl. split; [tauto|]. intros [_ H]. destruct (i - s)%nat; discriminate.
  - cbn [length seq combine In]. rewrite IH. split.
    + intros [H|[H1 H2]].
      * inversion H; subst. rewrite Nat.sub_diag. split; [lia | reflexivity].
      * split; [lia|]. replace (i - s)%nat with (S (i - S s)) by lia. exact H2.
    + intros [H1 H2]. destruct (Nat.eq_dec i s) as [->|Hne].
      * rewrite Nat.sub_diag in H2. simpl in H2. left. congruence.
      * right. split; [lia|].
        replace (i - s)%nat with (S (i - S s)) in H2 by lia. exact H2.
Qed.

Lemma landmark_pairs_index (peaks : list peak) (fan_out : Z) (a t : peak) :
  In (a, t) (landmark_pairs peaks fan_out)
  <-> exists i j : nat,
        nth_error peaks i = Some a /\ nth_error peaks j = Some t
        /\ (i < j)%nat /\ Z.of_nat j <= Z.of_nat i + fan_out.
Proof.
  unfold landmark_pairs, enumerate, range. rewrite in_flat_map. split.
  - intros [[i anchor] [Hi Hin]].
    apply In_enumerate_from in Hi. destruct Hi as [_ Hi]. rewrite Nat.sub_0_r in Hi.
    apply in_flat_map in Hin. destruct Hin as [j [Hj Hin]].
    apply in_seq in Hj.
    destruct (nth_error peaks j) as [target|] eqn:Ej; [|destruct Hin].
    destruct Hin as [Hin|[]]. inversion Hin; subst.
    exists i, j. repeat split; try assumption; lia.
  - intros [i [j [Hi [Hj [Hlt Hle]]]]].
    exists (i, a). split.
    + apply In_enumerate_from. rewrite Nat.sub_0_r. split; [lia | exact Hi].
    + apply in_flat_map. exists j. split.
      * assert (Hlen : (j < length peaks)%nat)
          by (apply nth_error_Some; congruence).
        apply in_seq. lia.
      * rewrite Hj. left. reflexivity.
Qed.

Lemma spec_pairs_map (g : peak -> peak) (peaks : list peak) (fan_out : Z) :
  spec_pairs (map g peaks) fan_out
  = map (fun p => (g (fst p), g (snd p))) (spec_pairs peaks fan_out).
Proof.
  induction peaks as [|a rest IH]; [reflexivity|].
  cbn [map spec_pairs]. rewrite map_app, IH, firstn_map, !map_map. reflexivity.
Qed.

Lemma fingerprint_of_pair_fields (p : peak * peak) :
  fingerprint_of_pair p
  = {| hash_value :=
         landmark_hash (peak_freq (fst p)) (peak_freq (snd p)) (time_diff_of p);
       track_id := None;
       time_offset := peak_time (fst p);
       frequency_pair := (peak_freq (fst p), peak_freq (snd p)) |}.
Proof. destruct p as [a t]. reflexivity. Qed.

(** C4.  The two loops pair every peak with the next [fan_out] peaks that
    follow it, that is the anchor at index [i] with the targets at the indices
    [i+1 .. i+fan_out] that exist; every fingerprint carries the SHA-256 hash
    of "freq1|freq2|time_delta" modulo 2^32, a value below 2^32 that does not
    change when all peaks are moved in time, together with the anchor's frame
    and no track; fewer than two peaks give no fingerprint. *)
Theorem generate_hashes_pairs_and_hash (peaks : list peak) (fan_out : Z) :
  landmark_pairs peaks fan_out = spec_pairs peaks fan_out
  /\ (forall a t : peak,
        In (a, t) (landmark_pairs peaks fan_out)
        <-> exists i j : nat,
              nth_error peaks i = Some a /\ nth_error peaks j = Some t
              /\ (i < j)%nat /\ Z.of_nat j <= Z.of_nat i + fan_out)
  /\ generate_hashes peaks fan_out
     = map (fun p : peak * peak =>
              {| hash_value :=
                   sha256_hexdigest_int
                     (str (peak_freq (fst p)) ++ "|" ++ str (peak_freq (snd p)) ++ "|"
                      ++ str (peak_time (snd p) - peak_time (fst p)))%string
                   mod 2 ^ 32;
                 track_id := None;
                 time_offset := peak_time (fst p);
                 frequency_pair := (peak_freq (fst p), peak_freq (snd p)) |})
           (spec_pairs peaks fan_out)
  /\ Forall (fun fp => 0 <= hash_value fp < 2 ^ 32) (generate_hashes peaks fan_out)
  /\ (forall k : Z,
        map hash_value (generate_hashes (map (shift_peak k) peaks) fan_out)
        = map hash_value (generate_hashes peaks fan_out))
  /\ generate_hashes [] fan_out = []
  /\ (forall p : peak, generate_hashes [p] fan_out = []).
Proof.
  split; [apply landmark_pairs_spec|].
  split; [intros a t; apply landmark_pairs_index|].
  split; [|split; [|split; [|split]]].
  - unfold generate_hashes. rewrite landmark_pairs_spec.
    apply map_ext. intros p. apply fingerprint_of_pair_fields.
  - unfold generate_hashes. rewrite Forall_forall. intros fp Hfp.
    apply in_map_iff in Hfp. destruct Hfp as [p [<- _]].
    rewrite fingerprint_of_pair_fields. simpl. unfold landmark_hash.
    apply Z.mod_pos_bound. reflexivity.
  - intros k. unfold generate_hashes.
    rewrite !landmark_pairs_spec, spec_pairs_map, !map_map.
    apply map_ext. intros [a t]. rewrite !fingerprint_of_pair_fields. simpl.
    unfold time_diff_of, shift_peak, peak_time, peak_freq. simpl.
    f_equal. lia.
  - reflexivity.
  - intros p. unfold generate_hashes. rewrite landmark_pairs_spec. simpl.
    rewrite firstn_nil. reflexivity.
Qed.

(** ** Peaks come out frame by frame *)

Lemma frame_peaks_time (self : RobustAudioFingerprinter) (spectrogram : ndarray)
  (t : nat) :
  Forall (fun p => peak_time p = Z.of_nat t) (frame_peaks self spectrogram t).
Proof.
  unfold frame_peaks. rewrite Forall_forall. intros p Hp.
  apply in_map_iff in Hp. destruct Hp as [fm [<- _]]. reflexivity.
Qed.

Lemma StronglySorted_app {A : Type} (R : A -> A -> Prop) (l1 l2 : list A) :
  StronglySorted R l1 -> StronglySorted R l2 ->
  (forall x y, In x l1 -> In y l2 -> R x y) ->
  StronglySorted R (l1 ++ l2).
Proof.
  induction 1 as [|x l1 Hs IH Hall]; intros H2 Hx; [exact H2|].
  simpl. constructor.
  - apply IH; [exact H2|]. intros a b Ha Hb. apply Hx; [right|]; assumption.
  - apply Forall_app. split; [exact Hall|].
    rewrite Forall_forall. intros y Hy. apply Hx; [left; reflexivity | exact Hy].
Qed.

Lemma flat_map_frames_sorted (g : nat -> list peak) (s n : nat) :
  (forall t, Forall (fun p => peak_time p = Z.of_nat t) (g t)) ->
  StronglySorted (fun p q => peak_time p <= peak_time q) (flat_map g (seq s n))
  /\ Forall (fun p => Z.of_nat s <= peak_time p) (flat_map g (seq s n)).
Proof.
  intros Hg. revert s. induction n as [|n IH]; intros s.
  - simpl. split; constructor.
  - cbn [seq flat_map]. destruct (IH (S s)) as [Hs Hlo].
    pose proof (Hg s) as Hgs. rewrite Forall_forall in Hgs, Hlo. split.
    + apply StronglySorted_app.
      * induction (g s) as [|p l IHl]; constructor.
        -- apply IHl. intros x Hx. apply Hgs. right. exact Hx.
        -- rewrite Forall_forall. intros q Hq.
           rewrite (Hgs p), (Hgs q); [lia | right; exact Hq | left; reflexivity].
      * exact Hs.
      * intros x y Hx Hy. rewrite (Hgs x Hx). specialize (Hlo y Hy). lia.
    + apply Forall_app. split; rewrite Forall_forall.
      * intros p Hp. rewrite (Hgs p Hp). lia.
      * intros p Hp. specialize (Hlo p Hp). lia.
Qed.

Lemma find_peaks_sorted (self : RobustAudioFingerprinter) (spectrogram : ndarray) :
  StronglySorted (fun p q => peak_time p <= peak_time q) (find_peaks self spectrogram).
Proof.
  unfold find_peaks. apply flat_map_frames_sorted. apply frame_peaks_time.
Qed.

Lemma In_firstn {A : Type} (n : nat) (x : A) (l : list A) :
  In x (firstn n l) -> In x l.
Proof.
  intros H. rewrite <- (firstn_skipn n l). apply in_or_app. left. exact H.
Qed.

Lemma spec_pairs_sorted (peaks : list peak) (fan_out : Z) :
  StronglySorted (fun p q => peak_time p <= peak_time q) peaks ->
  Forall (fun p => 0 <= time_diff_of p) (spec_pairs peaks fan_out).
Proof.
  induction 1 as [|a rest Hs IH Hall]; [constructor|].
  cbn [spec_pairs]. apply Forall_app. split; [|exact IH].
  rewrite Forall_forall in *. intros p Hp.
  apply in_map_iff in Hp. destruct Hp as [t [<- Ht]].
  apply In_firstn, Hall in Ht. unfold time_diff_of. simpl. lia.
Qed.

(** C9.  [find_peaks] lists its peaks by non-decreasing time frame, so every
    (anchor, target) pair that [generate_hashes] forms from them, one per
    fingerprint, has a time difference that is not negative. *)
Theorem find_peaks_time_diff_nonnegative (self : RobustAudioFingerprinter)
  (spectrogram : ndarray) (fan_out : Z) :
  StronglySorted (fun p q => peak_time p <= peak_time q) (find_peaks self spectrogram)
  /\ generate_hashes (find_peaks self spectrogram) fan_out
     = map fingerprint_of_pair (landmark_pairs (find_peaks self spectrogram) fan_out)
  /\ Forall (fun p => 0 <= peak_time (snd p) - peak_time (fst p))
       (landmark_pairs (find_peaks self spectrogram) fan_out).
Proof.
  split; [apply find_peaks_sorted|]. split; [reflexivity|].
  rewrite landmark_pairs_spec. apply spec_pairs_sorted, find_peaks_sorted.
Qed.

(** ** The peak test *)

Lemma Qlt_bool_iff (x y : Q) : Qlt_bool x y = true <-> (x < y)%Q.
Proof.
  unfold Qlt_bool. rewrite negb_true_iff. split.
  - apply Qle_bool_false.
  - intros H. destruct (Qle_bool y x) eqn:E; [|reflexivity].
    apply Qle_bool_iff in E. exfalso. apply (Qlt_not_le _ _ H E).
Qed.

Lemma py_max_bounds (x : Q) (rest : list Q) :
  In (py_max x rest) (x :: rest)
  /\ Forall (fun y => (y <= py_max x rest)%Q) (x :: rest).
Proof.
  unfold py_max. revert x. induction rest as [|y rest IH]; intros x.
  - simpl. split; [left; reflexivity|]. constructor; [apply Qle_refl | constructor].
  - cbn [fold_left]. destruct (Qlt_bool x y) eqn:E.
    + destruct (IH y) as [Hin Hall]. split.
      * right. exact Hin.
      * inversion Hall as [|? ? Hy Hrest]; subst.
        constructor; [|constructor; assumption].
        apply Qlt_bool_iff in E. apply Qle_trans with y; [apply Qlt_le_weak|]; assumption.
    + destruct (IH x) as [Hin Hall]. split.
      * destruct Hin as [Hin|Hin]; [left | right; right]; assumption.
      * inversion Hall as [|? ? Hx Hrest]; subst.
        constructor; [assumption|]. constructor; [|assumption].
        apply Qle_trans with x; [|assumption].
        unfold Qlt_bool in E. apply negb_false_iff, Qle_bool_iff in E. exact E.
Qed.

Lemma In_slice {A : Type} (lo hi : nat) (l : list A) (y : A) :
  In y (slice lo hi l)
  <-> exists g : nat, (lo <= g < hi)%nat /\ nth_error l g = Some y.
Proof.
  unfold slice. split.
  - intros H. apply In_nth_error in H. destruct H as [k Hk].
    rewrite nth_error_firstn in Hk.
    destruct (k <? hi - lo)%nat eqn:E; [|discriminate].
    apply Nat.ltb_lt in E. rewrite nth_error_skipn in Hk.
    exists (lo + k)%nat. split; [lia | exact Hk].
  - intros [g [Hg Hy]]. apply (nth_error_In _ (g - lo)).
    rewrite nth_error_firstn.
    replace (g - lo <? hi - lo)%nat with true by (symmetry; apply Nat.ltb_lt; lia).
    rewrite nth_error_skipn. replace (lo + (g - lo))%nat with g by lia. exact Hy.
Qed.

Lemma nth_error_frame (frame : list Q) (g : nat) (y : Q) :
  nth_error frame g = Some y <-> (g < length frame)%nat /\ nth g frame 0%Q = y.
Proof.
  split.
  - intros H. split.
    + apply nth_error_Some. congruence.
    + apply nth_error_nth. exact H.
  - intros [Hg <-]. apply nth_error_nth'. exact Hg.
Qed.

(** The neighbourhood test keeps the bins that hold a maximum of their
    neighbourhood, ties included. *)
Lemma is_peak_local_max (frame : list Q) (f : nat) :
  (f < length frame)%nat -> (is_peak frame f = true <-> local_max frame f).
Proof.
  intros Hf. unfold is_peak, local_max.
  assert (Hself : In (nth f frame 0%Q) (slice (f - 5) (Nat.min (length frame) (f + 6)) frame)).
  { apply In_slice. exists f. split; [lia|]. apply nth_error_frame. auto. }
  pose proof (In_slice (f - 5) (Nat.min (length frame) (f + 6)) frame) as Hsl.
  destruct (slice (f - 5) (Nat.min (length frame) (f + 6)) frame) as [|x rest];
    [destruct Hself|].
  destruct (py_max_bounds x rest) as [Hin Hall]. rewrite Forall_forall in Hall.
  rewrite Qeq_bool_iff. split.
  - intros E g Hg Hlo Hhi. rewrite E. apply Hall, Hsl.
    exists g. split; [lia|]. apply nth_error_frame. auto.
  - intros Hmax. apply Qle_antisym.
    + apply Hall. exact Hself.
    + apply Hsl in Hin. destruct Hin as [g [Hg Hy]].
      apply nth_error_frame in Hy. destruct Hy as [Hlen <-].
      apply Hmax; lia.
Qed.

Lemma local_peaks_In (frame : list Q) (f : nat) (m : Q) :
  In (f, m) (local_peaks frame)
  <-> (f < length frame)%nat /\ m = nth f frame 0%Q
      /\ local_max frame f /\ (noise_floor < nth f frame 0)%Q.
Proof.
  unfold local_peaks. rewrite in_map_iff. split.
  - intros [g [Hg Hin]]. inversion Hg; subst. clear Hg.
    apply filter_In in Hin. destruct Hin as [Hin Hb].
    apply in_seq in Hin. apply andb_true_iff in Hb. destruct Hb as [Hp Hn].
    assert (Hf : (f < length frame)%nat) by lia.
    repeat split; [exact Hf | | apply Qlt_bool_iff; exact Hn].
    apply (is_peak_local_max frame f Hf). exact Hp.
  - intros [Hf [-> [Hmax Hn]]]. exists f. split; [reflexivity|].
    apply filter_In. split; [apply in_seq; lia|].
    apply andb_true_iff. split.
    + apply (is_peak_local_max frame f Hf). exact Hmax.
    + apply Qlt_bool_iff. exact Hn.
Qed.

(** ** The cap on the peaks of a frame *)

Lemma slice_to_firstn {A : Type} (n : Z) (l : list A) :
  exists k : nat, slice_to n l = firstn k l /\ (0 <= n -> k = Z.to_nat n).
Proof.
  unfold slice_to. destruct (0 <=? n) eqn:E.
  - exists (Z.to_nat n). auto.
  - apply Z.leb_gt in E. exists (Z.to_nat (Z.of_nat (length l) + n)).
    split; [reflexivity | lia].
Qed.

Lemma StronglySorted_split {A : Type} (R : A -> A -> Prop) (l1 l2 : list A) :
  StronglySorted R (l1 ++ l2) ->
  forall x y, In x l1 -> In y l2 -> R x y.
Proof.
  induction l1 as [|a l1 IH]; simpl; intros Hs x y Hx Hy; [destruct Hx|].
  inversion Hs as [|? ? Hs' Hall]; subst.
  destruct Hx as [<-|Hx].
  - rewrite Forall_forall in Hall. apply Hall, in_or_app. right. exact Hy.
  - apply IH; assumption.
Qed.

Lemma filter_frames (g : nat -> list peak) (t s n : nat) :
  (forall u, Forall (fun p => peak_time p = Z.of_nat u) (g u)) ->
  filter (fun p => peak_time p =? Z.of_nat t) (flat_map g (seq s n))
  = if ((s <=? t) && (t <? s + n))%nat then g t else [].
Proof.
  intros Hg.
  assert (Hsame : forall u, filter (fun p => peak_time p =? Z.of_nat t) (g u)
                            = if Nat.eqb u t then g u else []).
  { intros u. specialize (Hg u). induction Hg as [|p l Hp Hl IH]; simpl.
    - destruct (Nat.eqb u t); reflexivity.
    - rewrite IH, Hp. destruct (Nat.eqb u t) eqn:E.
      + apply Nat.eqb_eq in E. subst. rewrite Z.eqb_refl. reflexivity.
      + apply Nat.eqb_neq in E.
        replace (Z.of_nat u =? Z.of_nat t) with false; [reflexivity|].
        symmetry. apply Z.eqb_neq. lia. }
  revert s. induction n as [|n IH]; intros s.
  - cbn [seq flat_map filter].
    destruct (s <=? t)%nat eqn:E; [|reflexivity].
    apply Nat.leb_le in E.
    replace (t <? s + 0)%nat with false by (symmetry; apply Nat.ltb_ge; lia).
    reflexivity.
  - cbn [seq flat_map]. rewrite filter_app, Hsame, IH.
    repeat match goal with
           | |- context [Nat.eqb ?a ?b] => destruct (Nat.eqb_spec a b)
           | |- context [Nat.leb ?a ?b] => destruct (Nat.leb_spec0 a b)
           | |- context [Nat.ltb ?a ?b] => destruct (Nat.ltb_spec0 a b)
           end;
      cbn [andb app]; subst; try lia; try reflexivity; apply app_nil_r.
Qed.

Lemma frame_peaks_firstn (self : RobustAudioFingerprinter) (spectrogram : ndarray)
  (t : nat) :
  exists k : nat,
    frame_peaks self spectrogram t
    = map (fun fm : nat * Q => (Z.of_nat t, Z.of_nat (fst fm), snd fm))
        (firstn k (sorted_reverse snd (local_peaks (column spectrogram t))))
    /\ (0 <= max_peaks self -> k = Z.to_nat (max_peaks self)).
Proof.
  unfold frame_peaks.
  destruct (slice_to_firstn (max_peaks self)
              (sorted_reverse snd (local_peaks (column spectrogram t))))
    as [k [E Hk]].
  exists k. rewrite E. auto.
Qed.

(** C3 (amended).  In every frame a bin is a candidate exactly when its
    magnitude is a maximum of its neighbourhood of five bins on either side,
    clipped at the edges, ties with neighbours included, and is above -40 dB.
    The peaks of the frame are the first [max_peaks] candidates in descending
    order of magnitude: a frame with more candidates than the cap gives
    exactly [max_peaks] peaks, and no candidate left out is larger than a
    peak that is kept. *)
Theorem find_peaks_candidates_and_cap (self : RobustAudioFingerprinter)
  (spectrogram : ndarray) (t : nat) :
  (forall (f : nat) (m : Q),
      In (f, m) (local_peaks (column spectrogram t))
      <-> (f < length (column spectrogram t))%nat
          /\ m = nth f (column spectrogram t) 0%Q
          /\ local_max (column spectrogram t) f
          /\ (noise_floor < nth f (column spectrogram t) 0)%Q)
  /\ ((t < shape1 spectrogram)%nat ->
      filter (fun p => peak_time p =? Z.of_nat t) (find_peaks self spectrogram)
      = frame_peaks self spectrogram t)
  /\ (0 <= max_peaks self ->
      frame_peaks self spectrogram t
      = map (fun fm : nat * Q => (Z.of_nat t, Z.of_nat (fst fm), snd fm))
          (firstn (Z.to_nat (max_peaks self))
             (sorted_reverse snd (local_peaks (column spectrogram t)))))
  /\ (0 <= max_peaks self < Z.of_nat (length (local_peaks (column spectrogram t))) ->
      Z.of_nat (length (frame_peaks self spectrogram t)) = max_peaks self)
  /\ (forall (p : peak) (c : nat * Q),
        In p (frame_peaks self spectrogram t) ->
        In c (local_peaks (column spectrogram t)) ->
        ~ In (Z.of_nat t, Z.of_nat (fst c), snd c) (frame_peaks self spectrogram t) ->
        (snd c <= peak_mag p)%Q)
  /\ (forall p : peak,
        In p (frame_peaks self spectrogram t) ->
        exists c : nat * Q,
          In c (local_peaks (column spectrogram t))
          /\ p = (Z.of_nat t, Z.of_nat (fst c), snd c)).
Proof.
  destruct (frame_peaks_firstn self spectrogram t) as [k [Ek Hk]].
  split; [intros f m; apply local_peaks_In|].
  split; [|split; [|split; [|split]]].
  - intros Ht. unfold find_peaks.
    rewrite filter_frames by (intros u; apply frame_peaks_time).
    replace (0 <=? t)%nat with true by (symmetry; apply Nat.leb_le; lia).
    replace (t <? 0 + shape1 spectrogram)%nat with true
      by (symmetry; apply Nat.ltb_lt; lia).
    reflexivity.
  - intros Hpos. rewrite Ek, (Hk Hpos). reflexivity.
  - intros [Hpos Hlt]. rewrite Ek, (Hk Hpos), length_map, length_firstn.
    rewrite sorted_reverse_length. lia.
  - intros p c Hp Hc Hout. rewrite Ek in Hp, Hout.
    apply in_map_iff in Hp. destruct Hp as [fm [<- Hfm]].
    apply (sorted_reverse_In snd) in Hc.
    rewrite <- (firstn_skipn k) in Hc. apply in_app_or in Hc.
    destruct Hc as [Hc|Hc].
    + exfalso. apply Hout.
      apply (in_map (fun fm0 : nat * Q => (Z.of_nat t, Z.of_nat (fst fm0), snd fm0))).
      exact Hc.
    + pose proof (sorted_reverse_sorted snd (local_peaks (column spectrogram t))) as Hs.
      rewrite <- (firstn_skipn k) in Hs.
      apply (StronglySorted_split _ _ _ Hs fm c Hfm Hc).
  - intros p Hp. rewrite Ek in Hp.
    apply in_map_iff in Hp. destruct Hp as [fm [<- Hfm]].
    exists fm. split; [|reflexivity].
    apply (sorted_reverse_In snd), (In_firstn k). exact Hfm.
Qed.

Lemma find_peaks_candidates_and_cap_witness :
  Z.of_nat (length (frame_peaks cap_one example_frames 0)) = 1
  /\ filter (fun p => peak_time p =? 0) (find_peaks cap_one example_frames)
     = [(0, 6, 0%Q)].
Proof.
  destruct (find_peaks_candidates_and_cap cap_one example_frames 0)
    as [_ [Hframe [_ [Hcap _]]]].
  split.
  - apply Hcap. vm_compute. split; [discriminate | reflexivity].
  - etransitivity; [apply Hframe; vm_compute; lia | reflexivity].
Defined.

(** C3, as stated, fails: in a frame of two equal bins neither holds the
    strict maximum of its neighbourhood, yet both are peaks. *)
Lemma find_peaks_keeps_ties :
  find_peaks default_fingerprinter (ndarray_of_frames 2 [[0%Q; 0%Q]])
  = [(0, 0, 0%Q); (0, 1, 0%Q)]
  /\ ~ strict_local_max (column (ndarray_of_frames 2 [[0%Q; 0%Q]]) 0) 0.
Proof.
  split; [reflexivity|].
  intros H. specialize (H 1%nat). simpl in H.
  assert (Hlt : (0 < 0)%Q) by (apply H; lia).
  revert Hlt. apply Qlt_irrefl.
Qed.

(** ** The pipeline and the batch *)

Section PipelineFacts.

Context {L : Librosa}.

Lemma fingerprint_stages_run (self : RobustAudioFingerprinter) (audio : list Q)
  (tid : option string) (lg : log) :
  fingerprint_stages self audio tid lg = (stages_outcome self audio tid, lg).
Proof.
  unfold stages_outcome, fingerprint_stages, preprocess_audio,
    generate_spectrogram, bind, lift, ret, raise.
  destruct (Nat.eqb (length audio) 0); [reflexivity|].
  destruct (librosa_normalize audio) as [a1|e]; [|reflexivity].
  destruct (librosa_trim a1) as [a2|e]; [|reflexivity].
  destruct (librosa_stft_abs a2 (n_fft self) (hop_length self)) as [s|e];
    [|reflexivity].
  destruct (librosa_amplitude_to_db s) as [s'|e]; reflexivity.
Qed.

Lemma fingerprint_audio_run (self : RobustAudioFingerprinter) (audio : list Q)
  (tid : option string) (lg : log) :
  fingerprint_audio self audio tid lg
  = (Returned (fingerprints_of self audio tid), lg ++ fingerprint_log self audio tid).
Proof.
  unfold fingerprint_audio, try_except, fingerprints_of, fingerprint_log.
  rewrite fingerprint_stages_run.
  destruct (stages_outcome self audio tid) as [fps|e].
  - rewrite app_nil_r. reflexivity.
  - reflexivity.
Qed.

Lemma process_file_run (file_path : string) (lg : log) :
  process_file file_path lg
  = (Returned (file_result file_path), lg ++ file_log file_path).
Proof.
  unfold process_file, try_except, bind, lift, ret, file_result, file_log,
    logger_error, track_id_of.
  destruct (librosa_load file_path 16000) as [audio|e]; [|reflexivity].
  rewrite fingerprint_audio_run. reflexivity.
Qed.

(** The error of [pool.map] in [parallel_fingerprint]. *)
Local Abbreviation pickling_error :=
  (OtherError "Can't pickle local object 'parallel_fingerprint.<locals>.process_file'").

Lemma Pool_run (processes : Z) (lg : log) :
  Pool processes lg
  = (if processes <? 1
     then Raised (ValueError "Number of processes must be at least 1")
     else Returned tt, lg).
Proof. unfold Pool. destruct (processes <? 1); reflexivity. Qed.

Lemma parallel_fingerprint_run (cpu_count : Z) (audio_files : list string)
  (num_processes : option Z) (lg : log) :
  parallel_fingerprint cpu_count audio_files num_processes lg
  = (match num_processes, audio_files with
     | Some n, _ =>
         if n <? 1 then Raised (ValueError "Number of processes must be at least 1")
         else match audio_files with
              | [] => Returned []
              | _ :: _ => Raised pickling_error
              end
     | None, [] => Returned []
     | None, _ :: _ => Raised pickling_error
     end, lg).
Proof.
  unfold parallel_fingerprint, bind. rewrite Pool_run.
  destruct num_processes as [n|].
  - destruct (n <? 1); [reflexivity|]. destruct audio_files; reflexivity.
  - destruct (Z.ltb_spec (Z.max 1 (cpu_count - 1)) 1) as [H|H]; [lia|].
    destruct audio_files; reflexivity.
Qed.

End PipelineFacts.

(** *** Merging the results *)

Local Abbreviation merge_from :=
  (fold_left
     (fun (d : list (string * list AudioFingerprint))
          (result : option (string * list AudioFingerprint)) =>
        match result with
        | Some (tid, fingerprints) => dict_set tid fingerprints d
        | None => d
        end)).






(** C2 (amended).  On an empty buffer [preprocess_audio] raises
    [ValueError("Empty audio input")] at once, whatever the collaborators do
    and without a result or a log record; [fingerprint_audio] catches that
    error, logs it and returns the empty list, and on no input does it raise. *)
Theorem empty_audio_raised_then_caught {L : Librosa} (self : RobustAudioFingerprinter)
  (tid : option string) (lg : log) :
  preprocess_audio self [] lg = (Raised (ValueError "Empty audio input"), lg)
  /\ fingerprint_stages self [] tid lg = (Raised (ValueError "Empty audio input"), lg)
  /\ fingerprint_audio self [] tid lg
     = (Returned [], lg ++ ["Fingerprinting failed: Empty audio input"%string])
  /\ (forall audio : list Q,
        exists (fingerprints : list AudioFingerprint) (lg' : log),
          fingerprint_audio self audio tid lg = (Returned fingerprints, lg')).
Proof.
  split; [reflexivity|]. split; [reflexivity|]. split; [reflexivity|].
  intros audio. rewrite fingerprint_audio_run. eauto.
Qed.

(** C2, as stated, fails: the caller of [fingerprint_audio] gets the empty
    list for an empty buffer, not the error. *)
Lemma fingerprint_audio_swallows_empty_input :
  fingerprint_audio (L := example_librosa) default_fingerprinter [] None []
  = (Returned [], ["Fingerprinting failed: Empty audio input"%string])
  /\ ~ exists (e : exn) (lg' : log),
         fingerprint_audio (L := example_librosa) default_fingerprinter [] None []
         = (Raised e, lg').
Proof.
  split; [reflexivity|]. intros [e [lg' H]]. discriminate H.
Qed.

(** C6 (defect of the code).  A batch of three files, the second with an
    empty buffer: [parallel_fingerprint] raises for the whole batch, returns
    no mapping and logs nothing.  [pool.map] is given [process_file], a
    function defined inside [parallel_fingerprint], which cannot be pickled;
    the error is raised outside the [try] of [process_file], before any file
    is read.  So it is for every batch of at least one file and every number
    of processes, whatever the files hold; a number of processes below one is
    refused by the pool, and only the empty batch returns, with the empty
    mapping. *)
Theorem parallel_fingerprint_raises_for_batch {L : Librosa} (cpu_count : Z) (lg : log) :
  parallel_fingerprint (L := example_librosa) 4
    ["a.wav"; "empty.wav"; "c.wav"]%string None []
  = (Raised
       (OtherError
          "Can't pickle local object 'parallel_fingerprint.<locals>.process_file'"),
     [])
  /\ librosa_load (Librosa := example_librosa) "empty.wav" 16000 = Returned []
  /\ (forall (path : string) (rest : list string) (num_processes : option Z),
        exists e : exn,
          parallel_fingerprint cpu_count (path :: rest) num_processes lg
          = (Raised e, lg)
          /\ (match num_processes with Some n => 1 <= n | None => True end ->
              e = OtherError
                    "Can't pickle local object 'parallel_fingerprint.<locals>.process_file'"))
  /\ (forall (audio_files : list string) (n : Z),
        n < 1 ->
        parallel_fingerprint cpu_count audio_files (Some n) lg
        = (Raised (ValueError "Number of processes must be at least 1"), lg))
  /\ (forall num_processes : option Z,
        match num_processes with Some n => 1 <= n | None => True end ->
        parallel_fingerprint cpu_count [] num_processes lg = (Returned [], lg)).
Proof.
  split; [reflexivity|]. split; [reflexivity|]. split; [|split].
  - intros path rest [n|]; rewrite parallel_fingerprint_run.
    + destruct (Z.ltb_spec n 1) as [H|H]; eexists; (split; [reflexivity|]).
      * intros Hn. lia.
      * reflexivity.
    + eexists. split; reflexivity.
  - intros audio_files n Hn. rewrite parallel_fingerprint_run.
    destruct (Z.ltb_spec n 1) as [H|H]; [reflexivity | lia].
  - intros [n|] Hn; rewrite parallel_fingerprint_run; [|reflexivity].
    destruct (Z.ltb_spec n 1) as [H|H]; [lia | reflexivity].
Qed.



(** * Further properties *)

(** ** Ingestion and lookup *)

Lemma select_by_hash_In (table : list fingerprint_row) (h : Z) (tid : string) (o : Z) :
  In (tid, o) (select_by_hash table h)
  <-> exists r, In r table /\ row_key r = (h, tid, o).
Proof.
  unfold select_by_hash, row_key. rewrite in_map_iff. split.
  - intros [r [E Hr]]. apply filter_In in Hr. destruct Hr as [Hr Hh].
    apply Z.eqb_eq in Hh. inversion E; subst. exists r. auto.
  - intros [r [Hr E]]. inversion E; subst. exists r. split; [reflexivity|].
    apply filter_In. split; [exact Hr | apply Z.eqb_refl].
Qed.

Lemma same_key_row_key (r1 r2 : fingerprint_row) :
  same_key r1 r2 = true <-> row_key r1 = row_key r2.
Proof.
  unfold same_key, row_key. rewrite !andb_true_iff, !Z.eqb_eq, String.eqb_eq.
  split.
  - intros [[-> ->] ->]. reflexivity.
  - intros E. inversion E. auto.
Qed.

Lemma existsb_same_key (r : fingerprint_row) (table : list fingerprint_row) :
  existsb (same_key r) table = true <-> In (row_key r) (map row_key table).
Proof.
  rewrite existsb_exists, in_map_iff. split.
  - intros [x [Hx E]]. exists x. split; [|exact Hx].
    symmetry. apply same_key_row_key. exact E.
  - intros [x [E Hx]]. exists x. split; [exact Hx|].
    apply same_key_row_key. symmetry. exact E.
Qed.

Lemma insert_or_ignore_keys (r : fingerprint_row) (table : list fingerprint_row)
  (k : Z * string * Z) :
  In k (map row_key (insert_or_ignore r table))
  <-> In k (map row_key table) \/ k = row_key r.
Proof.
  unfold insert_or_ignore. destruct (existsb (same_key r) table) eqn:E.
  - apply existsb_same_key in E. split; [auto|]. intros [H| ->]; assumption.
  - rewrite map_app, in_app_iff. simpl. split.
    + intros [H|[H|[]]]; auto.
    + intros [H|H]; auto.
Qed.

Lemma insert_rows_keys (rows table : list fingerprint_row) (k : Z * string * Z) :
  In k (map row_key (fold_left (fun tbl r => insert_or_ignore r tbl) rows table))
  <-> In k (map row_key table) \/ In k (map row_key rows).
Proof.
  revert table. induction rows as [|r rows IH]; intros table.
  - simpl. tauto.
  - cbn [fold_left map In]. rewrite IH, insert_or_ignore_keys. intuition auto.
Qed.

Lemma insert_rows_prefix (rows table : list fingerprint_row) :
  exists added,
    fold_left (fun tbl r => insert_or_ignore r tbl) rows table = table ++ added
    /\ incl added rows.
Proof.
  revert table. induction rows as [|r rows IH]; intros table.
  - exists []. rewrite app_nil_r. split; [reflexivity | intros x []].
  - cbn [fold_left]. destruct (IH (insert_or_ignore r table)) as [added [E Hincl]].
    unfold insert_or_ignore in *. destruct (existsb (same_key r) table).
    + exists added. split; [exact E|]. intros x Hx. right. apply Hincl, Hx.
    + exists (r :: added). rewrite E, <- app_assoc. split; [reflexivity|].
      intros x [<-|Hx]; [left; reflexivity | right; apply Hincl, Hx].
Qed.

Lemma insert_rows_NoDup (rows table : list fingerprint_row) :
  NoDup (map row_key table) ->
  NoDup (map row_key (fold_left (fun tbl r => insert_or_ignore r tbl) rows table)).
Proof.
  revert table. induction rows as [|r rows IH]; intros table Hnd; [exact Hnd|].
  cbn [fold_left]. apply IH. unfold insert_or_ignore.
  destruct (existsb (same_key r) table) eqn:E; [exact Hnd|].
  rewrite map_app. apply NoDup_app; [exact Hnd | constructor; [intros [] | constructor] |].
  intros k Hk [<-|[]]. apply existsb_same_key in Hk. congruence.
Qed.

Lemma dict_rows_In (d : list (string * list AudioFingerprint)) (k : Z * string * Z) :
  In k (map row_key
          (flat_map (fun entry : string * list AudioFingerprint =>
                       map (row_of (fst entry)) (snd entry)) d))
  <-> exists fps fp,
        In (snd (fst k), fps) d /\ In fp fps
        /\ hash_value fp = fst (fst k) /\ time_offset fp = snd k.
Proof.
  rewrite in_map_iff. split.
  - intros [r [E Hr]]. apply in_flat_map in Hr. destruct Hr as [[tid fps] [Hd Hr]].
    apply in_map_iff in Hr. destruct Hr as [fp [<- Hfp]].
    subst k. exists fps, fp. simpl. auto.
  - intros [fps [fp [Hd [Hfp [Hh Ho]]]]]. exists (row_of (snd (fst k)) fp). split.
    + destruct k as [[h t] o]. unfold row_key, row_of. simpl in *. congruence.
    + apply in_flat_map. exists (snd (fst k), fps). split; [exact Hd|].
      apply in_map. exact Hfp.
Qed.

Lemma insert_fingerprints_keys (table : list fingerprint_row)
  (fingerprints_dict : list (string * list AudioFingerprint)) (k : Z * string * Z) :
  In k (map row_key (insert_fingerprints table fingerprints_dict))
  <-> In k (map row_key table)
      \/ exists fps fp,
           In (snd (fst k), fps) fingerprints_dict /\ In fp fps
           /\ hash_value fp = fst (fst k) /\ time_offset fp = snd k.
Proof. rewrite insert_fingerprints_rows, insert_rows_keys, dict_rows_In. reflexivity. Qed.

Lemma select_by_hash_keys (table : list fingerprint_row) (h : Z) (tid : string) (o : Z) :
  In (tid, o) (select_by_hash table h) <-> In (h, tid, o) (map row_key table).
Proof.
  rewrite select_by_hash_In, in_map_iff.
  split; intros [r [H1 H2]]; exists r; auto.
Qed.

Lemma inserted_fingerprint_selected (table : list fingerprint_row)
  (fingerprints_dict : list (string * list AudioFingerprint))
  (tid : string) (fingerprints : list AudioFingerprint) (fp : AudioFingerprint) (h : Z) :
  In (tid, fingerprints) fingerprints_dict -> In fp fingerprints ->
  hash_value fp = h ->
  In (tid, time_offset fp)
     (select_by_hash (insert_fingerprints table fingerprints_dict) h).
Proof.
  intros Hd Hfp Hh. apply select_by_hash_keys, insert_fingerprints_keys. right.
  exists fingerprints, fp. simpl. auto.
Qed.

(** X1.  After [insert_fingerprints], the lookup of a hash lists exactly the
    occurrences stored before and those of the inserted fingerprints with
    that hash, each under the key of its dictionary entry. *)
Theorem insert_then_select (table : list fingerprint_row)
  (fingerprints_dict : list (string * list AudioFingerprint))
  (h : Z) (tid : string) (o : Z) :
  In (tid, o) (select_by_hash (insert_fingerprints table fingerprints_dict) h)
  <-> In (tid, o) (select_by_hash table h)
      \/ exists fingerprints fp,
           In (tid, fingerprints) fingerprints_dict /\ In fp fingerprints
           /\ hash_value fp = h /\ time_offset fp = o.
Proof.
  rewrite !select_by_hash_keys, insert_fingerprints_keys. simpl. split.
  - intros [H|[fps [fp H]]]; [left; exact H | right; exists fps, fp; exact H].
  - intros [H|[fps [fp H]]]; [left; exact H | right; exists fps, fp; exact H].
Qed.

(** X2.  [insert_fingerprints] only appends: the stored rows stay as and
    where they are, the added rows come from the dictionary, and if no two
    stored rows share a primary key, none do afterwards and no lookup lists
    an occurrence twice. *)
Theorem insert_fingerprints_keeps_rows_and_keys (table : list fingerprint_row)
  (fingerprints_dict : list (string * list AudioFingerprint))
  (Hkeys : NoDup (map row_key table)) :
  (exists added,
      insert_fingerprints table fingerprints_dict = table ++ added
      /\ forall r, In r added ->
           exists fingerprints fp,
             In (row_track_id r, fingerprints) fingerprints_dict
             /\ In fp fingerprints /\ r = row_of (row_track_id r) fp)
  /\ NoDup (map row_key (insert_fingerprints table fingerprints_dict))
  /\ forall h, NoDup (select_by_hash (insert_fingerprints table fingerprints_dict) h).
Proof.
  rewrite insert_fingerprints_rows.
  pose proof (insert_rows_NoDup
                (flat_map (fun entry : string * list AudioFingerprint =>
                             map (row_of (fst entry)) (snd entry)) fingerprints_dict)
                table Hkeys) as Hnd.
  split; [|split; [exact Hnd|]].
  - destruct (insert_rows_prefix
                (flat_map (fun entry : string * list AudioFingerprint =>
                             map (row_of (fst entry)) (snd entry)) fingerprints_dict)
                table) as [added [E Hincl]].
    exists added. split; [exact E|]. intros r Hr. apply Hincl in Hr.
    apply in_flat_map in Hr. destruct Hr as [[tid fps] [Hd Hr]].
    apply in_map_iff in Hr. destruct Hr as [fp [<- Hfp]].
    exists fps, fp. simpl. auto.
  - intros h. unfold select_by_hash.
    revert Hnd.
    generalize (fold_left (fun tbl r => insert_or_ignore r tbl)
                  (flat_map (fun entry : string * list AudioFingerprint =>
                               map (row_of (fst entry)) (snd entry)) fingerprints_dict)
                  table).
    intros t Hnd. induction t as [|r t IH]; [constructor|].
    cbn [map] in Hnd. apply NoDup_cons_iff in Hnd. destruct Hnd as [Hr Hnd].
    cbn [filter]. destruct (row_hash_value r =? h) eqn:E; [|apply IH, Hnd].
    cbn [map]. constructor; [|apply IH, Hnd].
    intros Hin. apply Hr. apply in_map_iff in Hin.
    destruct Hin as [r' [E' Hr']]. apply filter_In in Hr'. destruct Hr' as [Hr' Hh].
    apply in_map_iff. exists r'. split; [|exact Hr'].
    apply Z.eqb_eq in E, Hh. unfold row_key. inversion E'. congruence.
Qed.

Lemma insert_fingerprints_keeps_rows_and_keys_witness :
  NoDup (map row_key
           (insert_fingerprints [] [("t"%string, [query 10 0; query 10 0; query 20 4])])).
Proof.
  apply (insert_fingerprints_keeps_rows_and_keys []
           [("t"%string, [query 10 0; query 10 0; query 20 4])]).
  constructor.
Defined.

(** ** More on the matcher *)

Section SortFilter.

Context {A : Type} (key : A -> Q).

Lemma insert_desc_front (x : A) (l : list A) :
  Forall (fun y => (key y <= key x)%Q) l -> insert_desc key x l = x :: l.
Proof.
  intros H. destruct H as [|y l Hy _]; [reflexivity|].
  simpl. apply Qle_bool_iff in Hy. rewrite Hy. reflexivity.
Qed.

Lemma insert_desc_filter (p : A -> bool) (x : A) (l : list A) :
  StronglySorted (fun a b => (key b <= key a)%Q) l ->
  filter p (insert_desc key x l)
  = if p x then insert_desc key x (filter p l) else filter p l.
Proof.
  induction 1 as [|y l Hs IH Hall].
  - simpl. destruct (p x); reflexivity.
  - cbn [insert_desc]. destruct (Qle_bool (key y) (key x)) eqn:E.
    + cbn [filter]. destruct (p x); [|reflexivity].
      symmetry. apply insert_desc_front.
      apply Qle_bool_iff in E. rewrite Forall_forall in *.
      intros z Hz. destruct (p y).
      * destruct Hz as [<-|Hz]; [exact E|].
        apply filter_In in Hz. apply Qle_trans with (key y); [apply Hall; tauto | exact E].
      * apply filter_In in Hz. apply Qle_trans with (key y); [apply Hall; tauto | exact E].
    + cbn [filter]. rewrite IH. destruct (p y), (p x); try reflexivity.
      cbn [insert_desc]. rewrite E. reflexivity.
Qed.

Lemma filter_sorted_reverse (p : A -> bool) (l : list A) :
  filter p (sorted_reverse key l) = sorted_reverse key (filter p l).
Proof.
  induction l as [|x l IH]; [reflexivity|].
  cbn [sorted_reverse fold_right filter]. fold (sorted_reverse key l).
  rewrite insert_desc_filter by apply sorted_reverse_sorted.
  rewrite IH. destruct (p x); reflexivity.
Qed.

End SortFilter.

Lemma deltas_of_app (tid : string) (l1 l2 : list (string * Z)) :
  deltas_of tid (l1 ++ l2) = deltas_of tid l1 ++ deltas_of tid l2.
Proof. unfold deltas_of. rewrite filter_app, map_app. reflexivity. Qed.

Lemma spec_hits_In (fetchall : Z -> list (string * Z)) (sample : list AudioFingerprint)
  (tid : string) :
  In tid (map fst (spec_hits fetchall sample))
  <-> exists fp o, In fp sample /\ In (tid, o) (fetchall (hash_value fp)).
Proof.
  unfold spec_hits. rewrite in_map_iff. split.
  - intros [[t d] [E H]]. simpl in E. subst t.
    apply in_flat_map in H. destruct H as [fp [Hfp H]].
    apply in_map_iff in H. destruct H as [[t o] [E H]]. inversion E; subst.
    exists fp, o. auto.
  - intros [fp [o [Hfp H]]].
    exists (tid, Z.abs (time_offset fp - o)). split; [reflexivity|].
    apply in_flat_map. exists fp. split; [exact Hfp|].
    apply in_map_iff. exists (tid, o). auto.
Qed.

Lemma total_matches_at_least (fetchall : Z -> list (string * Z))
  (sample : list AudioFingerprint) (tid : string) :
  (forall fp, In fp sample -> exists o, In (tid, o) (fetchall (hash_value fp))) ->
  (length sample <= spec_total_matches fetchall sample tid)%nat.
Proof.
  unfold spec_total_matches, spec_hits.
  induction sample as [|fp sample IH]; intros H; [simpl; lia|].
  cbn [flat_map]. rewrite deltas_of_app, length_app.
  assert (Hfp : (1 <= length (deltas_of tid
                   (map (fun hit : string * Z => (fst hit, Z.abs (time_offset fp - snd hit)))
                      (fetchall (hash_value fp)))))%nat).
  { destruct (H fp (or_introl eq_refl)) as [o Ho].
    apply (proj1 (deltas_of_length_pos tid _)).
    rewrite map_map. simpl. apply in_map_iff. exists (tid, o). auto. }
  assert (IH' : (length sample <= length (deltas_of tid
                   (flat_map (fun fp0 => map (fun hit : string * Z =>
                       (fst hit, Z.abs (time_offset fp0 - snd hit)))
                       (fetchall (hash_value fp0))) sample)))%nat).
  { apply IH. intros fp' Hfp'. apply H. right. exact Hfp'. }
  simpl. lia.
Qed.

(** X3.  A query whose hashes all occur among the fingerprints ingested for a
    track finds that track: with a non-empty query of at least [threshold]
    fingerprints the track is in the result, with every query fingerprint
    counted. *)
Theorem ingested_track_is_matched (table : list fingerprint_row)
  (fingerprints_dict : list (string * list AudioFingerprint))
  (tid : string) (fingerprints sample : list AudioFingerprint) (threshold : Z)
  (Hin : In (tid, fingerprints) fingerprints_dict)
  (Hsub : forall q, In q sample ->
            exists fp, In fp fingerprints /\ hash_value fp = hash_value q)
  (Hne : sample <> [])
  (Hthr : threshold <= Z.of_nat (length sample)) :
  (length sample
   <= spec_total_matches
        (select_by_hash (insert_fingerprints table fingerprints_dict)) sample tid)%nat
  /\ In (tid,
         spec_confidence
           (select_by_hash (insert_fingerprints table fingerprints_dict)) sample tid)
        (match_fingerprint
           (select_by_hash (insert_fingerprints table fingerprints_dict))
           sample threshold).
Proof.
  assert (Htot : (length sample
                  <= spec_total_matches
                       (select_by_hash (insert_fingerprints table fingerprints_dict))
                       sample tid)%nat).
  { apply total_matches_at_least. intros q Hq.
    destruct (Hsub q Hq) as [fp [Hfp Hh]].
    exists (time_offset fp).
    apply (inserted_fingerprint_selected table fingerprints_dict tid fingerprints fp);
      assumption. }
  split; [exact Htot|].
  rewrite match_fingerprint_spec, sorted_reverse_In, spec_candidates_In.
  assert (0 < length sample)%nat by (destruct sample; [congruence | simpl; lia]).
  repeat split; lia.
Qed.

Lemma ingested_track_is_matched_witness :
  In ("t"%string,
      spec_confidence
        (select_by_hash (insert_fingerprints [] [("t"%string, [query 10 0; query 20 4])]))
        [query 20 9] "t")
     (match_fingerprint
        (select_by_hash (insert_fingerprints [] [("t"%string, [query 10 0; query 20 4])]))
        [query 20 9] 1).
Proof.
  apply (ingested_track_is_matched [] [("t"%string, [query 10 0; query 20 4])]
           "t" [query 10 0; query 20 4] [query 20 9] 1).
  - left. reflexivity.
  - intros q [<-|[]]. exists (query 20 4). split; [right; left; reflexivity | reflexivity].
  - discriminate.
  - simpl. lia.
Defined.

(** X4.  Raising the threshold only removes tracks: the result for the
    higher threshold is the result for the lower one without the tracks whose
    match count is below the higher threshold, the others keeping their
    confidence and their order. *)
Theorem match_fingerprint_threshold_monotone (fetchall : Z -> list (string * Z))
  (sample : list AudioFingerprint) (threshold1 threshold2 : Z)
  (Hle : threshold1 <= threshold2) :
  match_fingerprint fetchall sample threshold2
  = filter (fun r : string * Q =>
              threshold2 <=? Z.of_nat (spec_total_matches fetchall sample (fst r)))
           (match_fingerprint fetchall sample threshold1).
Proof.
  rewrite !match_fingerprint_spec, filter_sorted_reverse. f_equal.
  unfold spec_candidates.
  induction (first_seen (map fst (spec_hits fetchall sample))) as [|k keys IH];
    [reflexivity|].
  cbn [filter].
  destruct (threshold2 <=? Z.of_nat (spec_total_matches fetchall sample k)) eqn:E2.
  - apply Z.leb_le in E2.
    replace (threshold1 <=? Z.of_nat (spec_total_matches fetchall sample k)) with true
      by (symmetry; apply Z.leb_le; lia).
    cbn [map filter fst]. apply Z.leb_le in E2. rewrite E2, IH. reflexivity.
  - destruct (threshold1 <=? Z.of_nat (spec_total_matches fetchall sample k));
      [|exact IH].
    cbn [map filter fst]. rewrite E2. exact IH.
Qed.

Lemma match_fingerprint_threshold_monotone_witness :
  match_fingerprint
    (select_by_hash (insert_fingerprints []
       [("b"%string, [query 10 0]); ("a"%string, [query 10 5; query 20 0])]))
    [query 10 3; query 20 3] 2
  = [("a"%string, 2%Q / 2%Q)%Q].
Proof.
  rewrite (match_fingerprint_threshold_monotone _ _ 1 2 ltac:(lia)).
  reflexivity.
Defined.

(** X5.  [match_fingerprint] reports stored tracks only: every track of the
    result owns a row of the table whose hash is the hash of a query
    fingerprint.  An empty query and an empty table give the empty result. *)
Theorem match_fingerprint_only_stored_tracks (table : list fingerprint_row)
  (sample : list AudioFingerprint) (threshold : Z) :
  Forall (fun r : string * Q =>
            exists row fp,
              In row table /\ In fp sample
              /\ row_track_id row = fst r /\ row_hash_value row = hash_value fp)
         (match_fingerprint (select_by_hash table) sample threshold)
  /\ match_fingerprint (select_by_hash table) [] threshold = []
  /\ match_fingerprint (select_by_hash []) sample threshold = [].
Proof.
  split; [|split].
  - rewrite Forall_forall. intros [tid c] Hr.
    rewrite match_fingerprint_spec, sorted_reverse_In in Hr.
    apply spec_candidates_In in Hr. destruct Hr as [Hpos _].
    apply deltas_of_length_pos, spec_hits_In in Hpos.
    destruct Hpos as [fp [o [Hfp Ho]]].
    apply select_by_hash_In in Ho. destruct Ho as [row [Hrow Hk]].
    exists row, fp. inversion Hk. auto.
  - reflexivity.
  - rewrite match_fingerprint_spec. unfold spec_candidates.
    replace (spec_hits (select_by_hash []) sample) with (@nil (string * Z));
      [reflexivity|].
    unfold spec_hits. induction sample as [|fp sample IH]; [reflexivity|].
    simpl. exact IH.
Qed.

Lemma confidence_bounds (fetchall : Z -> list (string * Z))
  (sample : list AudioFingerprint) (tid : string) :
  (0 < spec_total_matches fetchall sample tid)%nat ->
  (spec_confidence fetchall sample tid
   <= inject_Z (Z.of_nat (spec_total_matches fetchall sample tid)))%Q
  /\ (spec_unique_deltas fetchall sample tid = 1%nat ->
      spec_confidence fetchall sample tid
      = (inject_Z (Z.of_nat (spec_total_matches fetchall sample tid)) / 1)%Q).
Proof.
  unfold spec_confidence, spec_total_matches, spec_unique_deltas. intros Hpos.
  assert (Hne : deltas_of tid (spec_hits fetchall sample) <> [])
    by (intros E; rewrite E in Hpos; simpl in Hpos; lia).
  destruct (nodup_length_bounds _ Hne) as [Hlo Hhi].
  split.
  - apply Qle_shift_div_r.
    + change 0%Q with (inject_Z 0). rewrite <- Zlt_Qlt. lia.
    + rewrite <- inject_Z_mult, <- Zle_Qle. nia.
  - intros ->. reflexivity.
Qed.

(** X6.  The confidence of a reported track is at most its match count, and
    it is the match count when all its time differences are equal. *)
Theorem match_fingerprint_confidence_at_most_total (fetchall : Z -> list (string * Z))
  (sample : list AudioFingerprint) (threshold : Z) :
  Forall (fun r : string * Q =>
            (snd r <= inject_Z (Z.of_nat (spec_total_matches fetchall sample (fst r))))%Q
            /\ (spec_unique_deltas fetchall sample (fst r) = 1%nat ->
                (snd r == inject_Z (Z.of_nat (spec_total_matches fetchall sample (fst r))))%Q))
         (match_fingerprint fetchall sample threshold).
Proof.
  rewrite Forall_forall. intros [tid c] Hr.
  rewrite match_fingerprint_spec, sorted_reverse_In in Hr.
  apply spec_candidates_In in Hr. destruct Hr as [Hpos [_ ->]].
  destruct (confidence_bounds fetchall sample tid Hpos) as [Hle Heq].
  split; [exact Hle|]. intros Hu. simpl. rewrite (Heq Hu). field.
Qed.

(** ** Track metadata *)

Lemma find_track_skip (tid tid' : string) (tracks : list track_row)
  (r : track_row) :
  tid' <> tid ->
  find (fun x => String.eqb (tr_track_id x) tid')
       (filter (fun x => negb (String.eqb (tr_track_id x) tid)) tracks ++ [r])
  = match find (fun x => String.eqb (tr_track_id x) tid') tracks with
    | Some x => Some x
    | None => if String.eqb (tr_track_id r) tid' then Some r else None
    end.
Proof.
  intros Hne. induction tracks as [|x tracks IH]; [reflexivity|].
  cbn [filter find]. destruct (String.eqb (tr_track_id x) tid) eqn:E; cbn [negb].
  - apply String.eqb_eq in E.
    replace (String.eqb (tr_track_id x) tid') with false; [exact IH|].
    symmetry. apply String.eqb_neq. congruence.
  - cbn [app find]. destruct (String.eqb (tr_track_id x) tid'); [reflexivity | exact IH].
Qed.

Lemma find_track_replaced (tid : string) (tracks : list track_row) (r : track_row) :
  tr_track_id r = tid ->
  find (fun x => String.eqb (tr_track_id x) tid)
       (filter (fun x => negb (String.eqb (tr_track_id x) tid)) tracks ++ [r])
  = Some r.
Proof.
  intros Hr. induction tracks as [|x tracks IH].
  - simpl. rewrite Hr, String.eqb_refl. reflexivity.
  - cbn [filter]. destruct (String.eqb (tr_track_id x) tid) eqn:E; cbn [negb];
      [exact IH|].
    cbn [app find]. rewrite E. exact IH.
Qed.

(** X7.  [get_track_metadata] after [insert_track_metadata] gives the five
    columns just written, whatever was stored for the track before; the
    metadata of every other track is as before; a track never written gives
    the empty dictionary. *)
Theorem track_metadata_round_trip (tracks : list track_row) (tid filename : string)
  (artist album : option string) (duration : option Q) :
  get_track_metadata
    (insert_track_metadata tracks tid filename artist album duration) tid
  = [ ("track_id", PyStr tid); ("filename", PyStr filename);
      ("artist", py_of_text artist); ("album", py_of_text album);
      ("duration", py_of_real duration) ]%string
  /\ (forall tid' : string,
        tid' <> tid ->
        get_track_metadata
          (insert_track_metadata tracks tid filename artist album duration) tid'
        = get_track_metadata tracks tid')
  /\ (forall tid' : string,
        ~ In tid' (map tr_track_id tracks) -> get_track_metadata tracks tid' = []).
Proof.
  split; [|split].
  - unfold get_track_metadata, insert_track_metadata.
    rewrite find_track_replaced by reflexivity. reflexivity.
  - intros tid' Hne. unfold get_track_metadata, insert_track_metadata.
    rewrite find_track_skip by exact Hne. cbn [tr_track_id].
    destruct (find (fun x => String.eqb (tr_track_id x) tid') tracks); [reflexivity|].
    replace (String.eqb tid tid') with false; [reflexivity|].
    symmetry. apply String.eqb_neq. congruence.
  - intros tid' Hno. unfold get_track_metadata.
    destruct (find (fun r => String.eqb (tr_track_id r) tid') tracks) as [r|] eqn:E;
      [|reflexivity].
    apply find_some in E. destruct E as [Hr E]. apply String.eqb_eq in E.
    exfalso. apply Hno. apply in_map_iff. exists r. auto.
Qed.

(** X8.  [insert_track_metadata] keeps one row per track: the written track
    has exactly one row afterwards, and if the stored track ids were distinct
    they still are and the table grew by at most one row. *)
Theorem track_ids_stay_unique (tracks : list track_row) (tid filename : string)
  (artist album : option string) (duration : option Q)
  (Hids : NoDup (map tr_track_id tracks)) :
  NoDup (map tr_track_id
           (insert_track_metadata tracks tid filename artist album duration))
  /\ length (filter (fun r => String.eqb (tr_track_id r) tid)
               (insert_track_metadata tracks tid filename artist album duration))
     = 1%nat
  /\ (length (insert_track_metadata tracks tid filename artist album duration)
      <= S (length tracks))%nat
  /\ (forall tid' : string,
        In tid' (map tr_track_id
                   (insert_track_metadata tracks tid filename artist album duration))
        <-> tid' = tid \/ In tid' (map tr_track_id tracks)).
Proof.
  unfold insert_track_metadata.
  assert (Hkeep : forall x,
             In x (map tr_track_id
                     (filter (fun r => negb (String.eqb (tr_track_id r) tid)) tracks))
             <-> In x (map tr_track_id tracks) /\ x <> tid).
  { intros x. rewrite !in_map_iff. split.
    - intros [r [<- Hr]]. apply filter_In in Hr. destruct Hr as [Hr Hb].
      apply negb_true_iff, String.eqb_neq in Hb. split; [exists r; auto | exact Hb].
    - intros [[r [<- Hr]] Hne]. exists r. split; [reflexivity|].
      apply filter_In. split; [exact Hr|]. apply negb_true_iff, String.eqb_neq, Hne. }
  split; [|split; [|split]].
  - rewrite map_app. apply NoDup_app.
    + clear Hkeep. induction tracks as [|x tracks IH]; [constructor|].
      cbn [map] in Hids. apply NoDup_cons_iff in Hids. destruct Hids as [Hx Hids].
      cbn [filter]. destruct (negb (String.eqb (tr_track_id x) tid)); [|apply IH, Hids].
      cbn [map]. constructor; [|apply IH, Hids].
      intros Hin. apply Hx. apply in_map_iff in Hin. destruct Hin as [r [E Hr]].
      apply filter_In in Hr. apply in_map_iff. exists r. tauto.
    + constructor; [intros [] | constructor].
    + intros x Hx [<-|[]]. apply Hkeep in Hx. tauto.
  - rewrite filter_app, length_app. cbn [filter tr_track_id].
    rewrite String.eqb_refl. cbn [length].
    replace (filter (fun r => String.eqb (tr_track_id r) tid)
               (filter (fun r => negb (String.eqb (tr_track_id r) tid)) tracks))
      with (@nil track_row); [reflexivity|].
    clear. induction tracks as [|x tracks IH]; [reflexivity|].
    cbn [filter]. destruct (String.eqb (tr_track_id x) tid) eqn:E; cbn [negb];
      [exact IH|].
    cbn [filter]. rewrite E. exact IH.
  - rewrite length_app. cbn [length].
    pose proof (filter_length_le (fun r => negb (String.eqb (tr_track_id r) tid)) tracks).
    lia.
  - intros tid'. rewrite map_app, in_app_iff, Hkeep. cbn [map In tr_track_id].
    destruct (string_dec tid' tid) as [->|Hne]; intuition congruence.
Qed.

Lemma track_ids_stay_unique_witness :
  NoDup (map tr_track_id
           (insert_track_metadata
              (insert_track_metadata [] "t" "first.mp3" None None None)
              "t" "second.mp3" (Some "artist"%string) None (Some 3%Q))).
Proof.
  apply (track_ids_stay_unique
           (insert_track_metadata [] "t" "first.mp3" None None None)
           "t" "second.mp3" (Some "artist"%string) None (Some 3%Q)).
  repeat constructor. intros [].
Defined.

(** ** More on the peaks *)

Lemma column_length (spectrogram : ndarray) (t : nat) :
  length (column spectrogram t) = shape0 spectrogram.
Proof. unfold column. rewrite length_map, length_seq. reflexivity. Qed.

Lemma column_nth (spectrogram : ndarray) (t f : nat) :
  (f < shape0 spectrogram)%nat ->
  nth f (column spectrogram t) 0%Q = item spectrogram f t.
Proof.
  intros Hf. unfold column.
  rewrite (nth_indep _ 0%Q (item spectrogram 0 t))
    by (rewrite length_map, length_seq; exact Hf).
  rewrite (map_nth (fun f0 => item spectrogram f0 t)), seq_nth by exact Hf.
  reflexivity.
Qed.

Lemma frame_peaks_In (self : RobustAudioFingerprinter) (spectrogram : ndarray)
  (t : nat) (p : peak) :
  In p (frame_peaks self spectrogram t) ->
  exists f : nat,
    p = (Z.of_nat t, Z.of_nat f, item spectrogram f t)
    /\ (f < shape0 spectrogram)%nat
    /\ local_max (column spectrogram t) f
    /\ (noise_floor < item spectrogram f t)%Q.
Proof.
  intros Hp. destruct (frame_peaks_firstn self spectrogram t) as [k [E _]].
  rewrite E in Hp. apply in_map_iff in Hp. destruct Hp as [[f m] [<- Hc]].
  apply In_firstn, (sorted_reverse_In snd), local_peaks_In in Hc.
  destruct Hc as [Hf [-> [Hmax Hn]]]. rewrite column_length in Hf.
  rewrite column_nth in * by exact Hf. exists f. simpl. auto.
Qed.

Lemma find_peaks_In (self : RobustAudioFingerprinter) (spectrogram : ndarray)
  (p : peak) :
  In p (find_peaks self spectrogram)
  <-> exists t : nat, (t < shape1 spectrogram)%nat /\ In p (frame_peaks self spectrogram t).
Proof.
  unfold find_peaks. rewrite in_flat_map. split.
  - intros [t [Ht Hp]]. apply in_seq in Ht. exists t. split; [lia | exact Hp].
  - intros [t [Ht Hp]]. exists t. split; [apply in_seq; lia | exact Hp].
Qed.

Lemma flat_map_length_le {A B : Type} (g : A -> list B) (k : nat) (l : list A) :
  (forall x, (length (g x) <= k)%nat) ->
  (length (flat_map g l) <= length l * k)%nat.
Proof.
  intros Hg. induction l as [|x l IH]; [simpl; lia|].
  cbn [flat_map length]. rewrite length_app. specialize (Hg x). lia.
Qed.

(** X9.  Every peak of [find_peaks] lies inside the spectrogram, carries the
    magnitude of its own cell and is above -40 dB; with a cap that is not
    negative there are at most [max_peaks] peaks per frame, none at all for a
    cap of zero, while a negative cap drops that many of the weakest
    candidates of each frame instead of capping. *)
Theorem find_peaks_bounds (self : RobustAudioFingerprinter) (spectrogram : ndarray) :
  Forall (fun p : peak =>
            0 <= peak_time p < Z.of_nat (shape1 spectrogram)
            /\ 0 <= peak_freq p < Z.of_nat (shape0 spectrogram)
            /\ (noise_floor < peak_mag p)%Q
            /\ peak_mag p
               = item spectrogram (Z.to_nat (peak_freq p)) (Z.to_nat (peak_time p)))
         (find_peaks self spectrogram)
  /\ (0 <= max_peaks self ->
      Z.of_nat (length (find_peaks self spectrogram))
      <= Z.of_nat (shape1 spectrogram) * max_peaks self)
  /\ (max_peaks self = 0 -> find_peaks self spectrogram = [])
  /\ (max_peaks self < 0 ->
      forall t : nat,
        length (frame_peaks self spectrogram t)
        = Z.to_nat (Z.of_nat (length (local_peaks (column spectrogram t)))
                    + max_peaks self)).
Proof.
  assert (Hcap : 0 <= max_peaks self ->
                 forall t, (length (frame_peaks self spectrogram t)
                            <= Z.to_nat (max_peaks self))%nat).
  { intros Hpos t. destruct (frame_peaks_firstn self spectrogram t) as [k [E Hk]].
    rewrite E, length_map, length_firstn, (Hk Hpos). lia. }
  split; [|split; [|split]].
  - rewrite Forall_forall. intros p Hp.
    apply find_peaks_In in Hp. destruct Hp as [t [Ht Hp]].
    apply frame_peaks_In in Hp. destruct Hp as [f [-> [Hf [_ Hn]]]].
    unfold peak_time, peak_freq, peak_mag. simpl. rewrite !Nat2Z.id.
    repeat split; try lia. exact Hn.
  - intros Hpos. unfold find_peaks.
    pose proof (flat_map_length_le (frame_peaks self spectrogram)
                  (Z.to_nat (max_peaks self)) (seq 0 (shape1 spectrogram))
                  (Hcap Hpos)) as H.
    rewrite length_seq in H. nia.
  - intros H0. assert (Hpos : 0 <= max_peaks self) by lia.
    unfold find_peaks. induction (seq 0 (shape1 spectrogram)) as [|t l IH];
      [reflexivity|].
    cbn [flat_map]. rewrite IH.
    specialize (Hcap Hpos t). rewrite H0 in Hcap.
    destruct (frame_peaks self spectrogram t); [reflexivity | simpl in Hcap; lia].
  - intros Hneg t. unfold frame_peaks, slice_to.
    replace (0 <=? max_peaks self) with false by (symmetry; apply Z.leb_gt; exact Hneg).
    rewrite length_map, length_firstn, sorted_reverse_length. lia.
Qed.

(** X10.  Two peaks of one frame that are at most five bins apart have the
    same magnitude: a peak has no stronger or weaker peak in its
    neighbourhood. *)
Theorem close_peaks_are_ties (self : RobustAudioFingerprinter) (spectrogram : ndarray)
  (p q : peak)
  (Hp : In p (find_peaks self spectrogram))
  (Hq : In q (find_peaks self spectrogram))
  (Htime : peak_time p = peak_time q)
  (Hclose : Z.abs (peak_freq p - peak_freq q) <= 5) :
  (peak_mag p == peak_mag q)%Q.
Proof.
  apply find_peaks_In in Hp, Hq.
  destruct Hp as [t [Ht Hp]], Hq as [u [Hu Hq]].
  apply frame_peaks_In in Hp, Hq.
  destruct Hp as [f [-> [Hf [Hmaxf _]]]], Hq as [g [-> [Hg [Hmaxg _]]]].
  unfold peak_time, peak_freq, peak_mag in *. simpl in *.
  assert (u = t) by lia. subst u.
  unfold local_max in *. rewrite column_length in *.
  apply Qle_antisym.
  - specialize (Hmaxg f Hf). rewrite !column_nth in Hmaxg by assumption.
    apply Hmaxg; lia.
  - specialize (Hmaxf g Hg). rewrite !column_nth in Hmaxf by assumption.
    apply Hmaxf; lia.
Qed.

Lemma close_peaks_are_ties_witness :
  (peak_mag (0%Z, 0%Z, 0%Q) == peak_mag (0%Z, 1%Z, 0%Q))%Q.
Proof.
  apply (close_peaks_are_ties default_fingerprinter (ndarray_of_frames 2 [[0%Q; 0%Q]])).
  - left. reflexivity.
  - right. left. reflexivity.
  - reflexivity.
  - vm_compute. discriminate.
Defined.

(** ** More on the landmark pairs *)

Lemma spec_pairs_length (peaks : list peak) (fan_out : Z) :
  (length (spec_pairs peaks fan_out) <= Z.to_nat fan_out * length peaks)%nat
  /\ ((Z.to_nat fan_out <= length peaks)%nat ->
      2 * Z.of_nat (length (spec_pairs peaks fan_out))
      + Z.of_nat (Z.to_nat fan_out) * (Z.of_nat (Z.to_nat fan_out) + 1)
      = 2 * Z.of_nat (Z.to_nat fan_out) * Z.of_nat (length peaks))
  /\ ((length peaks <= Z.to_nat fan_out)%nat ->
      2 * Z.of_nat (length (spec_pairs peaks fan_out)) + Z.of_nat (length peaks)
      = Z.of_nat (length peaks) * Z.of_nat (length peaks)).
Proof.
  induction peaks as [|a rest IH].
  - simpl. split; [lia|]. split; intros; lia.
  - cbn [spec_pairs]. rewrite length_app, length_map, length_firstn. cbn [length].
    destruct IH as [IH1 [IH2 IH3]].
    destruct (Nat.le_gt_cases (Z.to_nat fan_out) (length rest)) as [Hk|Hk].
    + specialize (IH2 Hk). rewrite Nat.min_l by exact Hk.
      split; [lia|]. split; intros; nia.
    + assert (Hk' : (length rest <= Z.to_nat fan_out)%nat) by lia.
      specialize (IH3 Hk'). rewrite Nat.min_r by exact Hk'.
      split; [nia|]. split; intros; nia.
Qed.

(** X11.  [generate_hashes] emits at most [fan_out] fingerprints per peak and
    none for a [fan_out] that is not positive; with at least [fan_out] peaks
    their number is [fan_out * n - fan_out * (fan_out + 1) / 2], with fewer
    it is [n * (n - 1) / 2], every pair of peaks once. *)
Theorem generate_hashes_count (peaks : list peak) (fan_out : Z) :
  Z.of_nat (length (generate_hashes peaks fan_out))
  <= Z.max 0 fan_out * Z.of_nat (length peaks)
  /\ (fan_out <= 0 -> generate_hashes peaks fan_out = [])
  /\ (0 <= fan_out <= Z.of_nat (length peaks) ->
      2 * Z.of_nat (length (generate_hashes peaks fan_out)) + fan_out * (fan_out + 1)
      = 2 * fan_out * Z.of_nat (length peaks))
  /\ (Z.of_nat (length peaks) <= fan_out ->
      2 * Z.of_nat (length (generate_hashes peaks fan_out)) + Z.of_nat (length peaks)
      = Z.of_nat (length peaks) * Z.of_nat (length peaks)).
Proof.
  unfold generate_hashes. rewrite length_map, landmark_pairs_spec.
  destruct (spec_pairs_length peaks fan_out) as [H1 [H2 H3]].
  split; [|split; [|split]].
  - nia.
  - intros Hle. assert (E : Z.to_nat fan_out = 0%nat) by lia.
    rewrite E in H1. destruct (spec_pairs peaks fan_out); [reflexivity | simpl in H1; lia].
  - intros [Hpos Hle]. assert (Hk : (Z.to_nat fan_out <= length peaks)%nat) by lia.
    specialize (H2 Hk). rewrite Z2Nat.id in H2 by exact Hpos. exact H2.
  - intros Hle. apply H3. lia.
Qed.

Lemma spec_pairs_In (peaks : list peak) (fan_out : Z) (p : peak * peak) :
  In p (spec_pairs peaks fan_out) -> In (fst p) peaks /\ In (snd p) peaks.
Proof.
  induction peaks as [|a rest IH]; [intros []|].
  cbn [spec_pairs]. rewrite in_app_iff. intros [H|H].
  - apply in_map_iff in H. destruct H as [t [<- Ht]]. apply In_firstn in Ht.
    simpl. auto.
  - destruct (IH H). simpl. auto.
Qed.

Lemma spec_pairs_anchor_sorted (peaks : list peak) (fan_out : Z) :
  StronglySorted (fun p q => peak_time p <= peak_time q) peaks ->
  StronglySorted (fun a b : peak * peak => peak_time (fst a) <= peak_time (fst b))
    (spec_pairs peaks fan_out).
Proof.
  induction 1 as [|a rest Hs IH Hall]; [constructor|].
  cbn [spec_pairs]. apply StronglySorted_app.
  - induction (firstn (Z.to_nat fan_out) rest) as [|t l IHl]; [constructor|].
    cbn [map]. constructor; [exact IHl|].
    rewrite Forall_forall. intros q Hq. apply in_map_iff in Hq.
    destruct Hq as [t' [<- _]]. simpl. lia.
  - exact IH.
  - intros x y Hx Hy. apply in_map_iff in Hx. destruct Hx as [t [<- _]].
    apply spec_pairs_In in Hy. destruct Hy as [Hy _].
    rewrite Forall_forall in Hall. simpl. apply Hall, Hy.
Qed.

Lemma StronglySorted_map {A B : Type} (R : B -> B -> Prop) (g : A -> B) (l : list A) :
  StronglySorted (fun x y => R (g x) (g y)) l -> StronglySorted R (map g l).
Proof.
  induction 1 as [|x l Hs IH Hall]; [constructor|].
  cbn [map]. constructor; [exact IH|].
  rewrite Forall_forall in *. intros y Hy. apply in_map_iff in Hy.
  destruct Hy as [z [<- Hz]]. apply Hall, Hz.
Qed.

Lemma fingerprints_of_spectrogram (self : RobustAudioFingerprinter)
  (spectrogram : ndarray) (fan_out : Z) :
  StronglySorted (fun a b => time_offset a <= time_offset b)
    (generate_hashes (find_peaks self spectrogram) fan_out)
  /\ Forall (fun fp : AudioFingerprint =>
               0 <= time_offset fp < Z.of_nat (shape1 spectrogram)
               /\ 0 <= fst (frequency_pair fp) < Z.of_nat (shape0 spectrogram)
               /\ 0 <= snd (frequency_pair fp) < Z.of_nat (shape0 spectrogram)
               /\ 0 <= hash_value fp < 2 ^ 32
               /\ track_id fp = None)
            (generate_hashes (find_peaks self spectrogram) fan_out).
Proof.
  unfold generate_hashes. rewrite landmark_pairs_spec. split.
  - apply StronglySorted_map.
    pose proof (spec_pairs_anchor_sorted _ fan_out (find_peaks_sorted self spectrogram)) as H.
    induction H as [|x l Hs IH Hall]; constructor.
    + exact IH.
    + rewrite Forall_forall in *. intros y Hy. specialize (Hall y Hy).
      rewrite !fingerprint_of_pair_fields. simpl. exact Hall.
  - rewrite Forall_forall. intros fp Hfp. apply in_map_iff in Hfp.
    destruct Hfp as [p [<- Hp]]. apply spec_pairs_In in Hp. destruct Hp as [Ha Ht].
    apply find_peaks_In in Ha, Ht.
    destruct Ha as [ta [Hta Ha]], Ht as [tt [Htt Ht]].
    apply frame_peaks_In in Ha, Ht.
    destruct Ha as [fa [Ea [Hfa _]]], Ht as [ft [Et [Hft _]]].
    rewrite fingerprint_of_pair_fields. simpl. rewrite Ea, Et.
    unfold peak_time, peak_freq, landmark_hash. simpl.
    repeat split; try lia; apply Z.mod_pos_bound; reflexivity.
Qed.

(** X12.  The fingerprints made from the peaks of a spectrogram come out by
    non-decreasing [time_offset]; every offset is a frame of the spectrogram,
    both frequencies of every pair are bins of it, every hash fits 32 bits
    and no fingerprint carries a track yet. *)
Theorem spectrogram_fingerprints_ordered_and_bounded (self : RobustAudioFingerprinter)
  (spectrogram : ndarray) (fan_out : Z) :
  StronglySorted (fun a b => time_offset a <= time_offset b)
    (generate_hashes (find_peaks self spectrogram) fan_out)
  /\ Forall (fun fp : AudioFingerprint =>
               0 <= time_offset fp < Z.of_nat (shape1 spectrogram)
               /\ 0 <= fst (frequency_pair fp) < Z.of_nat (shape0 spectrogram)
               /\ 0 <= snd (frequency_pair fp) < Z.of_nat (shape0 spectrogram)
               /\ 0 <= hash_value fp < 2 ^ 32
               /\ track_id fp = None)
            (generate_hashes (find_peaks self spectrogram) fan_out)
  /\ (shape1 spectrogram = 0%nat \/ shape0 spectrogram = 0%nat ->
      generate_hashes (find_peaks self spectrogram) fan_out = []).
Proof.
  destruct (fingerprints_of_spectrogram self spectrogram fan_out) as [Hs Hall].
  split; [exact Hs|]. split; [exact Hall|].
  intros Hempty.
  destruct (generate_hashes (find_peaks self spectrogram) fan_out) as [|fp l];
    [reflexivity|].
  inversion Hall as [|? ? Hfp _]; subst. lia.
Qed.

(** ** More on the pipeline and the batch *)

Section PipelineMore.

Context {L : Librosa}.

Lemma stages_outcome_fingerprints (self : RobustAudioFingerprinter) (audio : list Q)
  (tid : option string) (fps : list AudioFingerprint) :
  stages_outcome self audio tid = Returned fps ->
  exists spectrogram : ndarray,
    fps = map (set_track_id tid) (generate_hashes (find_peaks self spectrogram) 5).
Proof.
  unfold stages_outcome, fingerprint_stages, preprocess_audio,
    generate_spectrogram, bind, lift, ret, raise.
  destruct (Nat.eqb (length audio) 0); [discriminate|].
  destruct (librosa_normalize audio) as [a1|e]; [|discriminate].
  destruct (librosa_trim a1) as [a2|e]; [|discriminate].
  destruct (librosa_stft_abs a2 (n_fft self) (hop_length self)) as [s|e];
    [|discriminate].
  destruct (librosa_amplitude_to_db s) as [s'|e]; [|discriminate].
  simpl. intros E. inversion E. exists s'. reflexivity.
Qed.

Lemma fingerprints_of_fields (self : RobustAudioFingerprinter) (audio : list Q)
  (tid : option string) :
  Forall (fun fp : AudioFingerprint =>
            track_id fp = tid /\ 0 <= hash_value fp < 2 ^ 32 /\ 0 <= time_offset fp)
         (fingerprints_of self audio tid).
Proof.
  unfold fingerprints_of.
  destruct (stages_outcome self audio tid) as [fps|e] eqn:E; [|constructor].
  apply stages_outcome_fingerprints in E. destruct E as [s ->].
  destruct (fingerprints_of_spectrogram self s 5) as [_ Hall].
  rewrite Forall_forall in *. intros fp Hfp. apply in_map_iff in Hfp.
  destruct Hfp as [fp0 [<- Hfp0]]. specialize (Hall fp0 Hfp0). simpl.
  repeat split; lia.
Qed.

(** X13.  [fingerprint_audio] always returns: every fingerprint it gives
    carries the track id it was called with, a hash that fits 32 bits and a
    time offset that is not negative; the log is left alone when the stages
    succeed and gets exactly one record, with the empty list returned, when
    a stage raises. *)
Theorem fingerprint_audio_result_and_log (self : RobustAudioFingerprinter)
  (audio : list Q) (tid : option string) (lg : log) :
  exists (fingerprints : list AudioFingerprint) (lg' : log),
    fingerprint_audio self audio tid lg = (Returned fingerprints, lg')
    /\ Forall (fun fp : AudioFingerprint =>
                 track_id fp = tid /\ 0 <= hash_value fp < 2 ^ 32
                 /\ 0 <= time_offset fp)
              fingerprints
    /\ ((fingerprint_stages self audio tid lg = (Returned fingerprints, lg) /\ lg' = lg)
        \/ (exists e : exn,
              fingerprint_stages self audio tid lg = (Raised e, lg)
              /\ fingerprints = []
              /\ lg' = lg ++ [("Fingerprinting failed: " ++ exn_str e)%string])).
Proof.
  exists (fingerprints_of self audio tid), (lg ++ fingerprint_log self audio tid).
  split; [apply fingerprint_audio_run|]. split; [apply fingerprints_of_fields|].
  rewrite fingerprint_stages_run. unfold fingerprints_of, fingerprint_log.
  destruct (stages_outcome self audio tid) as [fps|e].
  - left. rewrite app_nil_r. auto.
  - right. exists e. auto.
Qed.

Lemma dict_set_In {V : Type} (k : string) (v : V) (d : list (string * V))
  (e : string * V) :
  In e (dict_set k v d) -> e = (k, v) \/ In e d.
Proof.
  induction d as [|[k0 v0] d IH]; simpl.
  - intros [<-|[]]. left. reflexivity.
  - destruct (String.eqb k k0) eqn:E.
    + apply String.eqb_eq in E. subst k0. intros [<-|H]; [left | right; right]; auto.
    + intros [<-|H]; [right; left; reflexivity|].
      destruct (IH H); [left | right; right]; assumption.
Qed.

Lemma dict_set_length {V : Type} (k : string) (v : V) (d : list (string * V)) :
  (length (dict_set k v d) <= S (length d))%nat.
Proof.
  induction d as [|[k0 v0] d IH]; simpl; [lia|].
  destruct (String.eqb k k0); simpl; lia.
Qed.

Lemma merge_from_In (rs : list (option (string * list AudioFingerprint)))
  (d : list (string * list AudioFingerprint)) (e : string * list AudioFingerprint) :
  In e (merge_from rs d) -> In e d \/ In (Some e) rs.
Proof.
  revert d. induction rs as [|r rs IH]; intros d; [simpl; auto|].
  cbn [fold_left]. intros H. apply IH in H. destruct H as [H|H]; [|right; right; exact H].
  destruct r as [[tid fps]|]; [|left; exact H].
  apply dict_set_In in H. destruct H as [->|H]; [right; left; reflexivity | left; exact H].
Qed.

Lemma merge_from_length (rs : list (option (string * list AudioFingerprint)))
  (d : list (string * list AudioFingerprint)) :
  (length (merge_from rs d) <= length d + length rs)%nat.
Proof.
  revert d. induction rs as [|r rs IH]; intros d; [simpl; lia|].
  cbn [fold_left length]. specialize (IH (match r with
                                           | Some (tid, fps) => dict_set tid fps d
                                           | None => d
                                           end)).
  destruct r as [[tid fps]|].
  - pose proof (dict_set_length tid fps d). lia.
  - lia.
Qed.

(** X14.  [process_file] returns for every path and raises nothing.  For a
    file that cannot be loaded it returns [None] and logs the error once.
    For a file that loads it returns the track id of the path with what
    [fingerprint_audio] gives for the loaded audio: fingerprints that all
    carry that track id, with 32-bit hashes.  The dictionary comprehension
    over results has no more tracks than there are results, and its entries
    are among the results; inserting it adds to the lookup of a hash only
    occurrences of tracks named in a result. *)
Theorem process_file_entries (file_path : string) (lg : log) :
  (exists (result : option (string * list AudioFingerprint)) (lg' : log),
      process_file file_path lg = (Returned result, lg')
      /\ match librosa_load file_path 16000 with
         | Raised e =>
             result = None
             /\ lg' = lg ++ [("Failed to process " ++ file_path ++ ": "
                              ++ exn_str e)%string]
         | Returned audio =>
             exists fingerprints : list AudioFingerprint,
               result = Some (track_id_of file_path, fingerprints)
               /\ fingerprint_audio default_fingerprinter audio
                    (Some (track_id_of file_path)) lg
                  = (Returned fingerprints, lg')
               /\ Forall (fun fp : AudioFingerprint =>
                            track_id fp = Some (track_id_of file_path)
                            /\ 0 <= hash_value fp < 2 ^ 32)
                         fingerprints
         end)
  /\ (forall results : list (option (string * list AudioFingerprint)),
        (length (merge_results results) <= length results)%nat
        /\ (forall entry : string * list AudioFingerprint,
              In entry (merge_results results) -> In (Some entry) results)
        /\ (forall (table : list fingerprint_row) (h : Z) (tid : string) (o : Z),
              In (tid, o)
                 (select_by_hash (insert_fingerprints table (merge_results results)) h) ->
              In (tid, o) (select_by_hash table h)
              \/ exists fingerprints, In (Some (tid, fingerprints)) results)).
Proof.
  split.
  - exists (file_result file_path), (lg ++ file_log file_path).
    split; [apply process_file_run|].
    unfold file_result, file_log.
    destruct (librosa_load file_path 16000) as [audio|e]; [|split; reflexivity].
    exists (fingerprints_of default_fingerprinter audio (Some (track_id_of file_path))).
    split; [reflexivity|]. split; [apply fingerprint_audio_run|].
    pose proof (fingerprints_of_fields default_fingerprinter audio
                  (Some (track_id_of file_path))) as H.
    rewrite Forall_forall in *. intros fp Hfp. specialize (H fp Hfp). simpl. tauto.
  - intros results. split; [|split].
    + unfold merge_results.
      pose proof (merge_from_length results []) as H. simpl in H. exact H.
    + intros entry He. unfold merge_results in He.
      apply merge_from_In in He. destruct He as [[]|He]. exact He.
    + intros table h tid o Hsel.
      apply select_by_hash_keys, insert_fingerprints_keys in Hsel.
      destruct Hsel as [Hsel|[fps [fp [Hd _]]]].
      * left. apply select_by_hash_keys. exact Hsel.
      * right. simpl in Hd. unfold merge_results in Hd.
        apply merge_from_In in Hd. destruct Hd as [[]|Hd].
        exists fps. exact Hd.
Qed.

End PipelineMore.

(** ** The track id of a path *)

Lemma string_length_app (a b : string) :
  String.length (a ++ b) = (String.length a + String.length b)%nat.
Proof. induction a as [|x a IH]; simpl; [reflexivity | rewrite IH; reflexivity]. Qed.

Lemma substring_all (s : string) : substring 0 (String.length s) s = s.
Proof. induction s as [|x s IH]; simpl; [reflexivity | rewrite IH; reflexivity]. Qed.

Lemma substring_skip (a b : string) (m : nat) :
  substring (String.length a) m (a ++ b) = substring 0 m b.
Proof. induction a as [|x a IH]; simpl; [reflexivity | exact IH]. Qed.

Lemma substring_prefix (a b : string) :
  substring 0 (String.length a) (a ++ b) = a.
Proof.
  induction a as [|x a IH]; simpl.
  - destruct b; reflexivity.
  - rewrite IH. reflexivity.
Qed.

Lemma contains_app (c : ascii) (a b : string) :
  contains c (a ++ b) = contains c a || contains c b.
Proof.
  induction a as [|x a IH]; simpl; [reflexivity|].
  rewrite IH, orb_assoc. reflexivity.
Qed.

Lemma contains_substring_0 (c : ascii) (s : string) (m : nat) :
  contains c s = false -> contains c (substring 0 m s) = false.
Proof.
  revert m. induction s as [|x s IH]; intros m H.
  - destruct m; reflexivity.
  - destruct m; [reflexivity|]. simpl in *.
    apply orb_false_iff in H. destruct H as [Hx Hs].
    rewrite Hx, (IH m Hs). reflexivity.
Qed.

Lemma rfind_from_absent (c : ascii) (s : string) (i last : Z) :
  contains c s = false -> rfind_from c s i last = last.
Proof.
  revert i last. induction s as [|x s IH]; intros i last H; [reflexivity|].
  simpl in *. apply orb_false_iff in H. destruct H as [Hx Hs].
  rewrite Hx. apply IH, Hs.
Qed.

Lemma rfind_from_app (c : ascii) (a b : string) (i last : Z) :
  rfind_from c (a ++ b) i last
  = rfind_from c b (i + Z.of_nat (String.length a)) (rfind_from c a i last).
Proof.
  revert i last. induction a as [|x a IH]; intros i last.
  - simpl. rewrite Z.add_0_r. reflexivity.
  - cbn [append rfind_from String.length]. rewrite IH. f_equal. lia.
Qed.

(** The last occurrence of [c] cuts the string in two. *)
Lemma rfind_from_split (c : ascii) (s : string) (i last : Z) :
  (rfind_from c s i last = last /\ contains c s = false)
  \/ exists a b,
       s = (a ++ String c b)%string /\ contains c b = false
       /\ rfind_from c s i last = i + Z.of_nat (String.length a).
Proof.
  revert i last. induction s as [|x s IH]; intros i last.
  - left. auto.
  - cbn [rfind_from contains]. destruct (Ascii.eqb x c) eqn:E.
    + apply Ascii.eqb_eq in E. subst x. right.
      destruct (IH (i + 1) i) as [[Hr Hc]|[a [b [-> [Hc Hr]]]]].
      * exists EmptyString, s. simpl. rewrite Hr. repeat split; [exact Hc | lia].
      * exists (String c a), b. rewrite Hr. simpl String.length.
        repeat split; [exact Hc | lia].
    + destruct (IH (i + 1) last) as [[Hr Hc]|[a [b [-> [Hc Hr]]]]].
      * left. simpl. auto.
      * right. exists (String x a), b. rewrite Hr. simpl String.length.
        repeat split; [exact Hc | lia].
Qed.

Lemma basename_split (p : string) :
  (basename p = p /\ contains "/" p = false)
  \/ exists a b,
       p = (a ++ String "/" b)%string /\ contains "/" b = false /\ basename p = b.
Proof.
  unfold basename, rfind, str_from.
  destruct (rfind_from_split "/" p 0 (-1)) as [[Hr Hc]|[a [b [-> [Hc Hr]]]]].
  - left. rewrite Hr. simpl Z.to_nat. rewrite Nat.sub_0_r, substring_all. auto.
  - right. exists a, b. rewrite Hr. split; [reflexivity|]. split; [exact Hc|].
    replace (Z.to_nat (0 + Z.of_nat (String.length a) + 1))
      with (String.length (a ++ "/")%string)
      by (rewrite string_length_app; simpl; lia).
    replace (a ++ String "/" b)%string with ((a ++ "/") ++ b)%string.
    + rewrite substring_skip, !string_length_app.
      replace (String.length a + String.length "/" + String.length b
               - (String.length a + String.length "/"))%nat
        with (String.length b) by lia.
      apply substring_all.
    + clear. induction a as [|x a IH]; simpl; [reflexivity | rewrite IH; reflexivity].
Qed.

Lemma splitext_stem_no_slash (s : string) :
  contains "/" s = false -> contains "/" (fst (splitext s)) = false.
Proof.
  intros H. unfold splitext.
  destruct ((rfind "/" s <? rfind "." s)
            && has_other "." s 0 (rfind "/" s + 1) (rfind "." s)); simpl.
  - unfold str_to. apply contains_substring_0, H.
  - exact H.
Qed.

Lemma has_other_prefix (c : ascii) (a b : string) (i : Z) :
  has_other c (a ++ b) i i (i + Z.of_nat (String.length a)) = negb (all_chars c a).
Proof.
  assert (Hout : forall s j lo hi, hi <= j -> has_other c s j lo hi = false).
  { induction s as [|x s IH]; intros j lo hi Hj; [reflexivity|].
    simpl. rewrite IH by lia.
    replace (j <? hi) with false by (symmetry; apply Z.ltb_ge; lia).
    rewrite andb_false_r. reflexivity. }
  assert (Hin : forall s lo j,
             lo <= j ->
             has_other c (s ++ b) j lo (j + Z.of_nat (String.length s))
             = negb (all_chars c s)).
  { induction s as [|x s IH]; intros lo j Hj.
    - simpl. rewrite Z.add_0_r. apply Hout. lia.
    - cbn [append has_other all_chars String.length].
      replace (lo <=? j) with true by (symmetry; apply Z.leb_le; lia).
      replace (j <? j + Z.of_nat (S (String.length s))) with true
        by (symmetry; apply Z.ltb_lt; lia).
      replace (j + Z.of_nat (S (String.length s)))
        with (j + 1 + Z.of_nat (String.length s)) by lia.
      rewrite (IH lo (j + 1)) by lia.
      destruct (Ascii.eqb x c); reflexivity. }
  apply Hin. lia.
Qed.

(** X15.  The track id of a path never contains a slash and depends on the
    file name only: a path ending in [/name] has the track id of [name],
    whatever the directory.  For a name [stem.ext] whose stem is not made of
    dots only and whose extension has no dot, the track id is [stem]. *)
Theorem track_id_of_file_name (p : string) :
  contains "/" (basename p) = false
  /\ contains "/" (track_id_of p) = false
  /\ (forall dir name : string,
        contains "/" name = false ->
        basename (dir ++ "/" ++ name) = name
        /\ track_id_of (dir ++ "/" ++ name) = track_id_of name)
  /\ (forall stem ext : string,
        contains "/" stem = false -> all_chars "." stem = false ->
        contains "/" ext = false -> contains "." ext = false ->
        track_id_of (stem ++ "." ++ ext) = stem).
Proof.
  assert (Hbase : forall s, contains "/" (basename s) = false).
  { intros s. destruct (basename_split s) as [[-> Hc]|[a [b [_ [Hc ->]]]]]; exact Hc. }
  assert (Hdir : forall dir name, contains "/" name = false ->
                   basename (dir ++ "/" ++ name) = name).
  { intros dir name Hn.
    - unfold basename, rfind.
      rewrite rfind_from_app. cbn [append rfind_from]. rewrite Ascii.eqb_refl.
      rewrite (rfind_from_absent "/" name) by exact Hn.
      unfold str_from.
      replace (Z.to_nat (0 + Z.of_nat (String.length dir) + 1))
        with (String.length (dir ++ "/")%string)
        by (rewrite string_length_app; simpl; lia).
      replace (dir ++ String "/" name)%string with ((dir ++ "/") ++ name)%string
        by (clear; induction dir as [|x d IH]; simpl; [reflexivity | rewrite IH; reflexivity]).
      rewrite substring_skip, !string_length_app.
      replace (String.length dir + String.length "/" + String.length name
               - (String.length dir + String.length "/"))%nat
        with (String.length name) by lia.
      apply substring_all. }
  split; [apply Hbase|]. split; [|split].
  - unfold track_id_of. apply splitext_stem_no_slash, Hbase.
  - intros dir name Hn. split; [apply Hdir, Hn|].
    unfold track_id_of. rewrite (Hdir dir name Hn).
    destruct (basename_split name) as [[-> _]|[a [b [-> _]]]]; [reflexivity|].
    rewrite contains_app in Hn. simpl in Hn. rewrite orb_true_r in Hn. discriminate.
  - intros stem ext Hs Hdots He Hd. unfold track_id_of.
    assert (Hfree : contains "/" (stem ++ "." ++ ext) = false).
    { rewrite contains_app. simpl. rewrite Hs, He. reflexivity. }
    destruct (basename_split (stem ++ "." ++ ext)) as [[-> _]|[a [b [E _]]]].
    + unfold splitext, rfind.
      rewrite (rfind_from_absent "/" _ 0 (-1) Hfree).
      rewrite rfind_from_app. cbn [append rfind_from]. rewrite Ascii.eqb_refl.
      rewrite (rfind_from_absent "." ext) by exact Hd.
      replace (-1 <? 0 + Z.of_nat (String.length stem)) with true
        by (symmetry; apply Z.ltb_lt; lia).
      change (-1 + 1) with 0.
      rewrite (has_other_prefix "." stem (String "." ext) 0), Hdots. simpl.
      unfold str_to. rewrite Nat2Z.id. apply substring_prefix.
    + rewrite E, contains_app in Hfree. simpl in Hfree.
      rewrite orb_true_r in Hfree. discriminate.
Qed.

(** ** The configuration *)

Example split_values :
  (split "." "", split "." "a..b", split "." "a.", split "." ".a",
   split "." "fingerprinting.sample_rate")
  = ([""], ["a"; ""; "b"], ["a"; ""], [""; "a"], ["fingerprinting"; "sample_rate"])%string.
Proof. reflexivity. Qed.

Example config_get_defaults :
  (config_get default_config "fingerprinting.sample_rate" CNone,
   config_get default_config "matching.threshold" CNone,
   config_get default_config "non.existent.key" (CScalar (SStr "default_value")),
   config_get default_config "database.path.x" (CScalar (SInt 0)))
  = (CScalar (SInt 16000), CScalar (SFloat 5),
     CScalar (SStr "default_value"), CScalar (SInt 0)).
Proof. reflexivity. Qed.

Example deep_merge_partial :
  deep_merge
    (CDict [("a", CScalar (SInt 1)); ("b", CDict [("c", CScalar (SInt 2))])]%string)
    (CDict [("a", CScalar (SInt 5));
            ("b", CDict [("d", CScalar (SInt 7)); ("c", CDict [("e", CNone)])])]%string)
  = (CDict [("a", CScalar (SInt 5));
            ("b", CDict [("c", CScalar (SInt 2)); ("d", CScalar (SInt 7))])]%string,
     Some TypeError).
Proof. reflexivity. Qed.

Example deep_merge_values :
  (deep_merge (CDict [("a", CScalar (SInt 1))]) (CDict [("a", CDict [])]),
   deep_merge (CDict [("a", CScalar (SInt 1))]) (CDict [("a", CDict [("x", CDict [])])]),
   deep_merge (CDict [("a", CNone)]) (CDict [("a", CDict [("x", CScalar (SInt 1))])]),
   deep_merge (CDict [("a", CScalar (SInt 1))])
     (CDict [("z", CDict [("x", CDict [("y", CScalar (SInt 1))])]);
             ("a", CDict [("q", CScalar (SInt 1))]); ("w", CScalar (SInt 3))]),
   deep_merge (CDict []) CNone,
   deep_merge (CDict [("a", CDict [("k", CScalar (SInt 1))])])
     (CDict [("a", CDict [("j", CScalar (SInt 2)); ("k", CDict [("y", CDict [])])])]))%string
  = ((CDict [("a", CScalar (SInt 1))], None),
     (CDict [("a", CScalar (SInt 1))], Some AttributeError),
     (CDict [("a", CNone)], Some TypeError),
     (CDict [("a", CScalar (SInt 1));
             ("z", CDict [("x", CDict [("y", CScalar (SInt 1))])])], Some TypeError),
     (CDict [], Some AttributeError),
     (CDict [("a", CDict [("k", CScalar (SInt 1)); ("j", CScalar (SInt 2))])],
      Some AttributeError))%string.
Proof. reflexivity. Qed.

Lemma config_value_induction (P : config_value -> Prop) :
  P CNone ->
  (forall v, P (CScalar v)) ->
  (forall items, Forall (fun kv => P (snd kv)) items -> P (CDict items)) ->
  forall v, P v.
Proof.
  intros HNone HScalar HDict. fix IH 1. intros [|s|items].
  - exact HNone.
  - apply HScalar.
  - apply HDict. induction items as [|kv items IHl]; constructor.
    + apply IH.
    + exact IHl.
Qed.

Lemma split_nonempty (sep : ascii) (s : string) : split sep s <> [].
Proof.
  destruct s as [|a s]; simpl; [discriminate|].
  destruct (Ascii.eqb a sep); [discriminate|].
  destruct (split sep s); discriminate.
Qed.

Lemma split_single (sep : ascii) (s : string) :
  contains sep s = false -> split sep s = [s].
Proof.
  induction s as [|a s IH]; simpl; intros H; [reflexivity|].
  apply orb_false_iff in H. destruct H as [Ha Hs].
  rewrite Ha, (IH Hs). reflexivity.
Qed.

Lemma split_app (sep : ascii) (a b : string) :
  split sep (a ++ String sep b) = split sep a ++ split sep b.
Proof.
  induction a as [|x a IH]; simpl.
  - rewrite Ascii.eqb_refl. reflexivity.
  - rewrite IH. destruct (Ascii.eqb x sep); [reflexivity|].
    destruct (split sep a) as [|w ws] eqn:E.
    + exfalso. apply (split_nonempty sep a E).
    + reflexivity.
Qed.

Lemma get_from_lookup (value : config_value) (keys : list string)
  (default : config_value) :
  keys <> [] ->
  get_from value keys default
  = match lookup_path value keys with
    | Some CNone | None => default
    | Some v => v
    end.
Proof.
  revert value. induction keys as [|k keys IH]; intros value Hne; [congruence|].
  cbn [get_from lookup_path]. destruct value as [| s | items]; try reflexivity.
  destruct (dict_get k items) as [v|]; [|reflexivity].
  destruct keys as [|k' keys].
  - simpl. destruct v; reflexivity.
  - destruct v as [| s | sub]; try reflexivity.
    apply IH. discriminate.
Qed.

(** X16.  [ConfigManager.get] follows the dot-separated key through the
    nested dictionaries and gives the value found there; it gives the default
    when a key of the path is missing, when the path runs through a value
    that is not a dictionary, and when the value found is [None].  A key
    [section.name] without further dots reads [name] inside [section]. *)
Theorem config_get_follows_path (config : config_value) (default : config_value) :
  (forall key : string,
      config_get config key default
      = match lookup_path config (split "." key) with
        | Some CNone | None => default
        | Some v => v
        end)
  /\ (forall key : string,
        config_get config key default = default
        \/ config_get config key default <> CNone)
  /\ (forall section name : string,
        contains "." section = false -> contains "." name = false ->
        config_get config (section ++ "." ++ name) default
        = match config with
          | CDict items =>
              match dict_get section items with
              | Some (CDict sub) =>
                  match dict_get name sub with
                  | Some CNone | None => default
                  | Some v => v
                  end
              | _ => default
              end
          | _ => default
          end).
Proof.
  assert (H : forall key,
             config_get config key default
             = match lookup_path config (split "." key) with
               | Some CNone | None => default
               | Some v => v
               end).
  { intros key. unfold config_get. apply get_from_lookup, split_nonempty. }
  split; [exact H|]. split.
  - intros key. rewrite H.
    destruct (lookup_path config (split "." key)) as [[| s | items]|];
      [left | right | right | left]; try reflexivity; discriminate.
  - intros section name Hs Hn. rewrite H.
    change (section ++ "." ++ name)%string with (section ++ String "." name)%string.
    rewrite split_app, (split_single "." section Hs), (split_single "." name Hn).
    simpl. destruct config as [| s | items]; try reflexivity.
    destruct (dict_get section items) as [[| s | sub]|]; try reflexivity.
    destruct (dict_get name sub) as [v|]; reflexivity.
Qed.

(** *** Merging *)

Lemma deep_merge_cons (base : config_value) (key : string) (value : config_value)
  (rest : list (string * config_value)) :
  deep_merge base (CDict ((key, value) :: rest))
  = match value with
    | CDict _ =>
        match base with
        | CDict bitems =>
            match deep_merge (match dict_get key bitems with
                              | Some v => v
                              | None => CDict []
                              end) value with
            | (sub', None) => deep_merge (CDict (dict_set key sub' bitems)) (CDict rest)
            | (sub', Some e) =>
                (match dict_get key bitems with
                 | Some _ => CDict (dict_set key sub' bitems)
                 | None => base
                 end, Some e)
            end
        | _ => (base, Some AttributeError)
        end
    | _ =>
        match base with
        | CDict bitems => deep_merge (CDict (dict_set key value bitems)) (CDict rest)
        | _ => (base, Some TypeError)
        end
    end.
Proof. destruct value; reflexivity. Qed.

Lemma deep_merge_app (base : config_value) (l1 l2 : list (string * config_value)) :
  deep_merge base (CDict (l1 ++ l2))
  = match deep_merge base (CDict l1) with
    | (b1, None) => deep_merge b1 (CDict l2)
    | (b1, Some e) => (b1, Some e)
    end.
Proof.
  revert base. induction l1 as [|[k v] l1 IH]; intros base; [reflexivity|].
  cbn [app]. rewrite !deep_merge_cons.
  destruct v as [| s | sub].
  - destruct base; try reflexivity. apply IH.
  - destruct base; try reflexivity. apply IH.
  - destruct base as [| s | bitems]; try reflexivity.
    destruct (deep_merge _ (CDict sub)) as [sub' [e|]]; [reflexivity|]. apply IH.
Qed.

Lemma deep_merge_keeps_kind (update base : config_value) :
  match base with
  | CDict _ => exists items, fst (deep_merge base update) = CDict items
  | _ => fst (deep_merge base update) = base
  end.
Proof.
  destruct update as [| s | uitems];
    try (destruct base; simpl; eauto; fail).
  revert base. induction uitems as [|[k v] rest IH]; intros base.
  - destruct base; simpl; eauto.
  - rewrite deep_merge_cons. destruct base as [| s | bitems].
    + destruct v; reflexivity.
    + destruct v; reflexivity.
    + destruct v as [| s | sub].
      * apply (IH (CDict (dict_set k CNone bitems))).
      * apply (IH (CDict (dict_set k (CScalar s) bitems))).
      * destruct (deep_merge _ (CDict sub)) as [sub' [e|]].
        -- simpl. destruct (dict_get k bitems); eauto.
        -- apply (IH (CDict (dict_set k sub' bitems))).
Qed.

Lemma dict_get_absent {V : Type} (k : string) (d : list (string * V)) :
  ~ In k (map fst d) -> dict_get k d = None.
Proof.
  intros H. destruct (dict_get k d) as [v|] eqn:E; [|reflexivity].
  exfalso. apply H, dict_get_In. exists v. exact E.
Qed.

Lemma dict_set_same {V : Type} (k : string) (v : V) (d : list (string * V)) :
  dict_get k d = Some v -> dict_set k v d = d.
Proof.
  induction d as [|[k0 v0] d IH]; simpl; [discriminate|].
  destruct (String.eqb k k0) eqn:E.
  - apply String.eqb_eq in E. subst. intros H. inversion H. reflexivity.
  - intros H. rewrite (IH H). reflexivity.
Qed.

Lemma deep_merge_not_dict (base : config_value) (item : string * config_value)
  (rest : list (string * config_value)) :
  (forall items, base <> CDict items) ->
  exists e, deep_merge base (CDict (item :: rest)) = (base, Some e).
Proof.
  intros Hb. destruct item as [k v]. rewrite deep_merge_cons.
  destruct base as [| s | bitems]; [| |exfalso; apply (Hb bitems); reflexivity];
    destruct v; eauto.
Qed.

(** What a merge that returned leaves under each key. *)
Lemma deep_merge_get (uitems bitems : list (string * config_value))
  (merged : config_value) :
  NoDup (map fst uitems) ->
  deep_merge (CDict bitems) (CDict uitems) = (merged, None) ->
  exists mitems,
    merged = CDict mitems
    /\ forall k,
         match dict_get k uitems with
         | None => dict_get k mitems = dict_get k bitems
         | Some (CDict sub) =>
             exists m,
               deep_merge (match dict_get k bitems with
                           | Some v => v
                           | None => CDict []
                           end) (CDict sub) = (m, None)
               /\ dict_get k mitems = Some m
         | Some v => dict_get k mitems = Some v
         end.
Proof.
  revert bitems. induction uitems as [|[k0 v0] rest IH]; intros bitems Hnd H.
  - simpl in H. inversion H; subst. exists bitems. split; [reflexivity|].
    intros k. reflexivity.
  - cbn [map fst] in Hnd. apply NoDup_cons_iff in Hnd. destruct Hnd as [Hk0 Hnd].
    rewrite deep_merge_cons in H.
    assert (Hstep : forall x,
               deep_merge (CDict (dict_set k0 x bitems)) (CDict rest) = (merged, None) ->
               exists mitems,
                 merged = CDict mitems
                 /\ dict_get k0 mitems = Some x
                 /\ forall k, String.eqb k k0 = false ->
                      match dict_get k rest with
                      | None => dict_get k mitems = dict_get k bitems
                      | Some (CDict sub) =>
                          exists m,
                            deep_merge (match dict_get k bitems with
                                        | Some v => v
                                        | None => CDict []
                                        end) (CDict sub) = (m, None)
                            /\ dict_get k mitems = Some m
                      | Some v => dict_get k mitems = Some v
                      end).
    { intros x Hx. destruct (IH _ Hnd Hx) as [mitems [-> Hall]].
      exists mitems. split; [reflexivity|]. split.
      - specialize (Hall k0). rewrite (dict_get_absent k0 rest Hk0) in Hall.
        rewrite Hall, dict_get_set, String.eqb_refl. reflexivity.
      - intros k Hk. specialize (Hall k). rewrite dict_get_set, Hk in Hall.
        exact Hall. }
    destruct v0 as [| s | sub].
    + destruct (Hstep _ H) as [mitems [-> [H0 Hall]]].
      exists mitems. split; [reflexivity|]. intros k. cbn [dict_get].
      destruct (String.eqb k k0) eqn:E; [|apply Hall, E].
      apply String.eqb_eq in E. subst. exact H0.
    + destruct (Hstep _ H) as [mitems [-> [H0 Hall]]].
      exists mitems. split; [reflexivity|]. intros k. cbn [dict_get].
      destruct (String.eqb k k0) eqn:E; [|apply Hall, E].
      apply String.eqb_eq in E. subst. exact H0.
    + destruct (deep_merge _ (CDict sub)) as [sub' [e|]] eqn:Esub; [discriminate|].
      destruct (Hstep _ H) as [mitems [-> [H0 Hall]]].
      exists mitems. split; [reflexivity|]. intros k. cbn [dict_get].
      destruct (String.eqb k k0) eqn:E; [|apply Hall, E].
      apply String.eqb_eq in E. subst. exists sub'. auto.
Qed.

Lemma distinct_keys_get (items : list (string * config_value)) (k : string)
  (v : config_value) :
  distinct_keys (CDict items) -> dict_get k items = Some v -> distinct_keys v.
Proof.
  intros [_ Hall]. induction items as [|[k0 v0] items IH]; [discriminate|].
  destruct Hall as [Hv Hall]. cbn [dict_get].
  destruct (String.eqb k k0); [|apply IH, Hall].
  intros E. inversion E; subst. exact Hv.
Qed.

Lemma lookup_path_leaf (v : config_value) (path : list string) :
  (forall items, v <> CDict items) -> path <> [] -> lookup_path v path = None.
Proof.
  intros Hv Hp. destruct path as [|k path]; [congruence|].
  destruct v as [| s | items]; try reflexivity. exfalso. apply (Hv items). reflexivity.
Qed.

Lemma deep_merge_leaves (update : config_value) :
  forall (base merged : config_value) (path : list string) (leaf : config_value),
    distinct_keys update ->
    deep_merge base update = (merged, None) ->
    path <> [] ->
    lookup_path update path = Some leaf ->
    (forall items, leaf <> CDict items) ->
    lookup_path merged path = Some leaf.
Proof.
  induction update as [| s | uitems IHu] using config_value_induction;
    intros base merged path leaf Hd H Hp Hl Hleaf;
    try (destruct path; [congruence | discriminate]).
  destruct path as [|k rest]; [congruence|].
  cbn [lookup_path] in Hl.
  destruct (dict_get k uitems) as [v|] eqn:Ek; [|discriminate].
  destruct base as [| s | bitems];
    try (destruct uitems as [|item uitems]; [discriminate|];
         edestruct (deep_merge_not_dict) as [e He];
         [|rewrite He in H; discriminate]; intros items; discriminate).
  destruct (deep_merge_get uitems bitems merged (proj1 Hd) H) as [mitems [-> Hall]].
  specialize (Hall k). rewrite Ek in Hall. cbn [lookup_path].
  assert (Hin : In (k, v) uitems).
  { clear -Ek. induction uitems as [|[k0 v0] l IH]; [discriminate|].
    simpl in Ek. destruct (String.eqb k k0) eqn:E.
    - apply String.eqb_eq in E. inversion Ek; subst. left. reflexivity.
    - right. apply IH, Ek. }
  destruct rest as [|k' rest'].
  - simpl in Hl. inversion Hl; subst v.
    destruct leaf as [| s | items]; [| |exfalso; apply (Hleaf items); reflexivity];
      rewrite Hall; reflexivity.
  - destruct v as [| s | sub]; try discriminate.
    destruct Hall as [m [Hm ->]].
    rewrite Forall_forall in IHu.
    eapply (IHu (k, CDict sub) Hin);
      [ | exact Hm | discriminate | exact Hl | exact Hleaf ].
    apply (distinct_keys_get uitems k); assumption.
Qed.

Lemma deep_merge_outside (update : config_value) :
  forall (base merged : config_value) (p1 : list string) (k : string)
         (p2 : list string) (items : list (string * config_value)),
    distinct_keys update ->
    deep_merge base update = (merged, None) ->
    lookup_path update p1 = Some (CDict items) ->
    dict_get k items = None ->
    lookup_path merged (p1 ++ k :: p2) = lookup_path base (p1 ++ k :: p2).
Proof.
  induction update as [| s | uitems IHu] using config_value_induction;
    intros base merged p1 k p2 items Hd H Hl Hk;
    try (destruct p1; discriminate).
  destruct base as [| s | bitems];
    try (destruct uitems as [|item uitems];
         [simpl in H; inversion H; reflexivity|];
         edestruct (deep_merge_not_dict) as [e He];
         [|rewrite He in H; discriminate]; intros its; discriminate).
  destruct (deep_merge_get uitems bitems merged (proj1 Hd) H) as [mitems [-> Hall]].
  destruct p1 as [|k1 p1'].
  - simpl in Hl. inversion Hl; subst items.
    specialize (Hall k). rewrite Hk in Hall. cbn [app lookup_path].
    rewrite Hall. reflexivity.
  - cbn [lookup_path] in Hl.
    destruct (dict_get k1 uitems) as [v|] eqn:Ek; [|discriminate].
    assert (Hin : In (k1, v) uitems).
    { clear -Ek. induction uitems as [|[k0 v0] l IH]; [discriminate|].
      simpl in Ek. destruct (String.eqb k1 k0) eqn:E.
      - apply String.eqb_eq in E. inversion Ek; subst. left. reflexivity.
      - right. apply IH, Ek. }
    destruct v as [| s | sub];
      try (destruct p1'; discriminate).
    specialize (Hall k1). rewrite Ek in Hall. destruct Hall as [m [Hm Hget]].
    cbn [app lookup_path]. rewrite Hget.
    rewrite Forall_forall in IHu.
    etransitivity.
    { eapply (IHu (k1, CDict sub) Hin); [ | exact Hm | exact Hl | exact Hk ].
      apply (distinct_keys_get uitems k1); assumption. }
    destruct (dict_get k1 bitems) as [v|]; [reflexivity|].
    destruct p1'; reflexivity.
Qed.

(** X17.  After a merge that returned, every value of the YAML that is not a
    dictionary is found in the configuration at its own path, and every path
    that leaves the YAML at some key reads what it read before the merge: the
    YAML overrides what it names and nothing else. *)
Theorem deep_merge_overrides_named_paths (base update merged : config_value)
  (Hkeys : distinct_keys update)
  (Hmerge : deep_merge base update = (merged, None)) :
  (forall (path : list string) (leaf : config_value),
      path <> [] ->
      lookup_path update path = Some leaf ->
      (forall items, leaf <> CDict items) ->
      lookup_path merged path = Some leaf)
  /\ (forall (p1 : list string) (k : string) (p2 : list string)
             (items : list (string * config_value)),
        lookup_path update p1 = Some (CDict items) ->
        dict_get k items = None ->
        lookup_path merged (p1 ++ k :: p2) = lookup_path base (p1 ++ k :: p2))
  /\ (forall (section name : string) (v : scalar) (default : config_value),
        contains "." section = false -> contains "." name = false ->
        lookup_path update [section; name] = Some (CScalar v) ->
        config_get merged (section ++ "." ++ name) default = CScalar v).
Proof.
  split; [|split].
  - intros path leaf Hp Hl Hleaf.
    apply (deep_merge_leaves update base merged path leaf); assumption.
  - intros p1 k p2 items Hl Hk.
    apply (deep_merge_outside update base merged p1 k p2 items); assumption.
  - intros section name v default Hs Hn Hl. unfold config_get.
    change (section ++ "." ++ name)%string with (section ++ String "." name)%string.
    rewrite split_app, (split_single "." section Hs), (split_single "." name Hn).
    cbn [app]. rewrite get_from_lookup by discriminate.
    rewrite (deep_merge_leaves update base merged [section; name] (CScalar v));
      try assumption; [reflexivity | discriminate | intros items; discriminate].
Qed.

Lemma deep_merge_overrides_named_paths_witness :
  config_get
    (fst (deep_merge default_config
            (CDict [("fingerprinting", CDict [("sample_rate", CScalar (SInt 22050))])]%string)))
    "fingerprinting.sample_rate" CNone
  = CScalar (SInt 22050)
  /\ lookup_path
       (fst (deep_merge default_config
               (CDict [("fingerprinting", CDict [("sample_rate", CScalar (SInt 22050))])]%string)))
       (["fingerprinting"%string] ++ "n_fft"%string :: [])
     = lookup_path default_config (["fingerprinting"%string] ++ "n_fft"%string :: []).
Proof.
  destruct (deep_merge_overrides_named_paths default_config
              (CDict [("fingerprinting", CDict [("sample_rate", CScalar (SInt 22050))])]%string)
              (fst (deep_merge default_config
                      (CDict [("fingerprinting",
                               CDict [("sample_rate", CScalar (SInt 22050))])]%string))))
    as [_ [Hout Hget]].
  - simpl. repeat constructor; intros [].
  - reflexivity.
  - split.
    + apply (Hget "fingerprinting"%string "sample_rate"%string (SInt 22050) CNone);
        reflexivity.
    + apply (Hout ["fingerprinting"%string] "n_fft"%string []
               [("sample_rate"%string, CScalar (SInt 22050))]); reflexivity.
Defined.

(** X18.  A merge fails without rollback.  A YAML value that is not a
    dictionary raises and changes nothing; a dictionary is merged item by
    item and stops at the first item that raises, the items before it staying
    merged; an item that puts a non-empty section where the configuration
    holds a value that is not a dictionary raises and leaves that value. *)
Theorem deep_merge_fails_without_rollback (base : config_value) :
  (forall update : config_value,
      (forall items, update <> CDict items) ->
      deep_merge base update = (base, Some AttributeError))
  /\ (forall l1 l2 : list (string * config_value),
        deep_merge base (CDict (l1 ++ l2))
        = match deep_merge base (CDict l1) with
          | (b1, None) => deep_merge b1 (CDict l2)
          | (b1, Some e) => (b1, Some e)
          end)
  /\ (forall (bitems : list (string * config_value)) (k : string)
             (old : config_value) (item : string * config_value)
             (sub rest : list (string * config_value)),
        base = CDict bitems ->
        dict_get k bitems = Some old ->
        (forall items, old <> CDict items) ->
        exists e,
          deep_merge base (CDict ((k, CDict (item :: sub)) :: rest)) = (base, Some e))
  /\ (forall update : config_value,
        match base with
        | CDict _ => exists items, fst (deep_merge base update) = CDict items
        | _ => fst (deep_merge base update) = base
        end).
Proof.
  split; [|split; [|split]].
  - intros update Hu. destruct update as [| s | items]; try reflexivity.
    exfalso. apply (Hu items). reflexivity.
  - apply deep_merge_app.
  - intros bitems k old item sub rest -> Hk Hold.
    rewrite deep_merge_cons, Hk.
    destruct (deep_merge_not_dict old item sub Hold) as [e He].
    rewrite He. exists e. rewrite (dict_set_same k old bitems Hk). reflexivity.
  - intros update. apply deep_merge_keeps_kind.
Qed.

Lemma deep_merge_twice (update : config_value) :
  forall base merged : config_value,
    distinct_keys update ->
    deep_merge base update = (merged, None) ->
    deep_merge merged update = (merged, None).
Proof.
  induction update as [| s | uitems IHu] using config_value_induction;
    intros base merged Hd H; try discriminate.
  destruct base as [| s | bitems].
  - destruct uitems as [|item uitems]; [reflexivity|].
    destruct (deep_merge_not_dict CNone item uitems) as [e He];
      [intros items; discriminate | rewrite He in H; discriminate].
  - destruct uitems as [|item uitems]; [reflexivity|].
    destruct (deep_merge_not_dict (CScalar s) item uitems) as [e He];
      [intros items; discriminate | rewrite He in H; discriminate].
  - destruct (deep_merge_get uitems bitems merged (proj1 Hd) H) as [mitems [-> Hall]].
    rewrite Forall_forall in IHu.
    assert (Hitem : forall l,
               incl l uitems ->
               deep_merge (CDict mitems) (CDict l) = (CDict mitems, None)).
    { induction l as [|[k v] l IHl]; intros Hincl; [reflexivity|].
      assert (Hin : In (k, v) uitems) by (apply Hincl; left; reflexivity).
      assert (Hl : incl l uitems) by (intros x Hx; apply Hincl; right; exact Hx).
      assert (Ek : dict_get k uitems = Some v).
      { destruct Hd as [Hnd _]. clear -Hin Hnd.
        induction uitems as [|[k0 v0] u IH]; [destruct Hin|].
        cbn [map fst] in Hnd. apply NoDup_cons_iff in Hnd. destruct Hnd as [Hk0 Hnd].
        cbn [dict_get]. destruct Hin as [E|Hin].
        - inversion E; subst. rewrite String.eqb_refl. reflexivity.
        - destruct (String.eqb k k0) eqn:E; [|apply IH; assumption].
          apply String.eqb_eq in E. subst. exfalso. apply Hk0.
          apply (in_map fst) in Hin. exact Hin. }
      specialize (Hall k). rewrite Ek in Hall. rewrite deep_merge_cons.
      destruct v as [| s | sub].
      - rewrite (dict_set_same k CNone mitems Hall). apply IHl, Hl.
      - rewrite (dict_set_same k (CScalar s) mitems Hall). apply IHl, Hl.
      - destruct Hall as [m [Hm Hget]]. rewrite Hget.
        pose proof (IHu (k, CDict sub) Hin _ m
                      (distinct_keys_get uitems k _ Hd Ek) Hm) as Hi.
        cbn [snd] in Hi. cbv iota. rewrite Hi.
        rewrite (dict_set_same k m mitems Hget). apply IHl, Hl. }
    apply Hitem. intros x Hx. exact Hx.
Qed.

(** X19.  Merging the same YAML a second time changes nothing: a merge that
    returned gives a configuration on which the same merge returns it
    unchanged.  Merging the empty dictionary changes nothing either. *)
Theorem deep_merge_idempotent (base update merged : config_value)
  (Hkeys : distinct_keys update)
  (Hmerge : deep_merge base update = (merged, None)) :
  deep_merge merged update = (merged, None)
  /\ deep_merge merged (CDict []) = (merged, None)
  /\ (forall key default,
        config_get (fst (deep_merge merged update)) key default
        = config_get merged key default).
Proof.
  pose proof (deep_merge_twice update base merged Hkeys Hmerge) as H.
  split; [exact H|]. split; [reflexivity|].
  intros key default. rewrite H. reflexivity.
Qed.

Lemma deep_merge_idempotent_witness :
  deep_merge
    (fst (deep_merge default_config
            (CDict [("matching", CDict [("threshold", CScalar (SFloat 3))]);
                    ("extra", CDict [("a", CDict [("b", CNone)])])]%string)))
    (CDict [("matching", CDict [("threshold", CScalar (SFloat 3))]);
            ("extra", CDict [("a", CDict [("b", CNone)])])]%string)
  = (fst (deep_merge default_config
            (CDict [("matching", CDict [("threshold", CScalar (SFloat 3))]);
                    ("extra", CDict [("a", CDict [("b", CNone)])])]%string)),
     None).
Proof.
  apply (deep_merge_idempotent default_config).
  - simpl. repeat constructor; simpl; intuition discriminate.
  - reflexivity.
Defined.

(** *** Loading the configuration files *)

(** X20.  [_load_yaml_config] stops at the first file that loads and merges:
    the files after it are not read.  Files that do not exist are passed
    over silently; a file that cannot be read, an empty file (which parses to
    [None]) and a file whose merge raises are passed over with a warning, and
    the next path is tried on the configuration as the failed merge left it.
    With no file at all the configuration is unchanged and nothing is
    logged. *)
Theorem load_yaml_config_first_file_wins
  (read : string -> option (outcome config_value)) (config : config_value) :
  (forall (before after : list string) (path : string)
          (yaml_config merged : config_value),
      (forall p, In p before -> read p = None) ->
      read path = Some (Returned yaml_config) ->
      deep_merge config yaml_config = (merged, None) ->
      load_yaml_config read config (before ++ path :: after) = (merged, []))
  /\ (forall paths : list string,
        (forall p, In p paths -> read p = None) ->
        load_yaml_config read config paths = (config, []))
  /\ (forall (path : string) (paths : list string),
        read path = Some (Returned CNone) ->
        load_yaml_config read config (path :: paths)
        = (fst (load_yaml_config read config paths),
           (path, MergeFailed AttributeError)
           :: snd (load_yaml_config read config paths)))
  /\ (forall (path : string) (paths : list string) (e : exn),
        read path = Some (Raised e) ->
        load_yaml_config read config (path :: paths)
        = (fst (load_yaml_config read config paths),
           (path, ReadFailed e) :: snd (load_yaml_config read config paths)))
  /\ (forall (path : string) (paths : list string) (yaml_config partly : config_value)
             (e : merge_error),
        read path = Some (Returned yaml_config) ->
        deep_merge config yaml_config = (partly, Some e) ->
        load_yaml_config read config (path :: paths)
        = (fst (load_yaml_config read partly paths),
           (path, MergeFailed e) :: snd (load_yaml_config read partly paths)))
  /\ (forall paths : list string,
        length (snd (load_yaml_config read config paths)) <= length paths)%nat.
Proof.
  assert (Hnone : forall paths c,
             (forall p, In p paths -> read p = None) ->
             load_yaml_config read c paths = (c, [])).
  { induction paths as [|p paths IH]; intros c H; [reflexivity|].
    cbn [load_yaml_config]. rewrite (H p (or_introl eq_refl)).
    apply IH. intros q Hq. apply H. right. exact Hq. }
  split; [|split; [|split; [|split; [|split]]]].
  - intros before after path yaml_config merged Hb Hr Hm.
    induction before as [|p before IH].
    + cbn [app load_yaml_config]. rewrite Hr, Hm. reflexivity.
    + cbn [app load_yaml_config]. rewrite (Hb p (or_introl eq_refl)).
      apply IH. intros q Hq. apply Hb. right. exact Hq.
  - intros paths. apply Hnone.
  - intros path paths Hr. cbn [load_yaml_config]. rewrite Hr. cbn [deep_merge].
    destruct (load_yaml_config read config paths). reflexivity.
  - intros path paths e Hr. cbn [load_yaml_config]. rewrite Hr.
    destruct (load_yaml_config read config paths). reflexivity.
  - intros path paths yaml_config partly e Hr Hm. cbn [load_yaml_config].
    rewrite Hr, Hm. destruct (load_yaml_config read partly paths). reflexivity.
  - intros paths. revert config. induction paths as [|p paths IH]; intros c.
    + simpl. lia.
    + cbn [load_yaml_config]. destruct (read p) as [[y|e]|].
      * destruct (deep_merge c y) as [m [e|]].
        -- specialize (IH m). destruct (load_yaml_config read m paths). simpl in *. lia.
        -- simpl. lia.
      * specialize (IH c). destruct (load_yaml_config read c paths). simpl in *. lia.
      * specialize (IH c). simpl. lia.
Qed.

(** ** Order of the query, of the rows and of ingestion *)

Lemma filter_perm {A : Type} (p : A -> bool) (l l' : list A) :
  Permutation l l' -> Permutation (filter p l) (filter p l').
Proof.
  induction 1 as [|x l l' Hp IH|x y l|l l' l'' H1 IH1 H2 IH2]; simpl.
  - constructor.
  - destruct (p x); [apply perm_skip|]; exact IH.
  - destruct (p x), (p y); try apply Permutation_refl.
    apply perm_swap.
  - apply perm_trans with (filter p l'); assumption.
Qed.

Lemma nodup_length_perm (l l' : list Z) :
  Permutation l l' -> length (nodup Z.eq_dec l) = length (nodup Z.eq_dec l').
Proof.
  intros Hp. apply Permutation_length, NoDup_Permutation; try apply NoDup_nodup.
  intros x. rewrite !nodup_In. split; apply Permutation_in;
    [exact Hp | apply Permutation_sym, Hp].
Qed.

Lemma spec_hits_perm (fetch1 fetch2 : Z -> list (string * Z))
  (sample1 sample2 : list AudioFingerprint) :
  Permutation sample1 sample2 ->
  (forall h, Permutation (fetch1 h) (fetch2 h)) ->
  Permutation (spec_hits fetch1 sample1) (spec_hits fetch2 sample2).
Proof.
  intros Hs Hf. unfold spec_hits.
  apply perm_trans with
    (flat_map (fun fp => map (fun hit : string * Z =>
                                (fst hit, Z.abs (time_offset fp - snd hit)))
                             (fetch1 (hash_value fp))) sample2).
  - apply Permutation_flat_map, Hs.
  - clear Hs. induction sample2 as [|fp l IH]; [constructor|].
    cbn [flat_map]. apply Permutation_app; [|exact IH].
    apply Permutation_map, Hf.
Qed.

Lemma match_counts_perm (fetch1 fetch2 : Z -> list (string * Z))
  (sample1 sample2 : list AudioFingerprint) (tid : string) :
  Permutation sample1 sample2 ->
  (forall h, Permutation (fetch1 h) (fetch2 h)) ->
  spec_total_matches fetch1 sample1 tid = spec_total_matches fetch2 sample2 tid
  /\ spec_confidence fetch1 sample1 tid = spec_confidence fetch2 sample2 tid.
Proof.
  intros Hs Hf.
  assert (Hd : Permutation (deltas_of tid (spec_hits fetch1 sample1))
                           (deltas_of tid (spec_hits fetch2 sample2))).
  { unfold deltas_of. apply Permutation_map, filter_perm, spec_hits_perm; assumption. }
  unfold spec_confidence, spec_total_matches, spec_unique_deltas.
  rewrite (Permutation_length Hd), (nodup_length_perm _ _ Hd). auto.
Qed.

Lemma match_fingerprint_NoDup (fetchall : Z -> list (string * Z))
  (sample : list AudioFingerprint) (threshold : Z) :
  NoDup (match_fingerprint fetchall sample threshold).
Proof.
  apply (NoDup_map_inv fst). rewrite match_fingerprint_spec.
  apply (Permutation_NoDup (l := map fst (spec_candidates fetchall sample threshold))).
  - apply Permutation_map, Permutation_sym, sorted_reverse_perm.
  - apply spec_candidates_keys_NoDup.
Qed.

(** X21.  The tracks reported by [match_fingerprint] and their confidences
    depend neither on the order of the query fingerprints nor on the order in
    which the storage lists the rows of a hash: only the order of tracks of
    equal confidence can change. *)
Theorem match_fingerprint_order_independent (fetch1 fetch2 : Z -> list (string * Z))
  (sample1 sample2 : list AudioFingerprint) (threshold : Z)
  (Hsample : Permutation sample1 sample2)
  (Hrows : forall h, Permutation (fetch1 h) (fetch2 h)) :
  Permutation (match_fingerprint fetch1 sample1 threshold)
              (match_fingerprint fetch2 sample2 threshold).
Proof.
  apply NoDup_Permutation; try apply match_fingerprint_NoDup.
  intros [tid c]. rewrite !match_fingerprint_spec, !sorted_reverse_In.
  rewrite !spec_candidates_In.
  destruct (match_counts_perm fetch1 fetch2 sample1 sample2 tid Hsample Hrows)
    as [-> ->].
  reflexivity.
Qed.

Lemma match_fingerprint_order_independent_witness :
  Permutation
    (match_fingerprint
       (select_by_hash (insert_fingerprints []
          [("b"%string, [query 10 0]); ("a"%string, [query 20 0])]))
       [query 10 3; query 20 3] 1)
    (match_fingerprint
       (select_by_hash (insert_fingerprints []
          [("b"%string, [query 10 0]); ("a"%string, [query 20 0])]))
       [query 20 3; query 10 3] 1).
Proof.
  apply match_fingerprint_order_independent.
  - apply perm_swap.
  - intros h. apply Permutation_refl.
Defined.

Lemma select_perm (table1 table2 : list fingerprint_row) (h : Z) :
  NoDup (map row_key table1) -> NoDup (map row_key table2) ->
  (forall k, In k (map row_key table1) <-> In k (map row_key table2)) ->
  Permutation (select_by_hash table1 h) (select_by_hash table2 h).
Proof.
  intros H1 H2 Hk.
  assert (Hnd : forall t, NoDup (map row_key t) -> NoDup (select_by_hash t h)).
  { intros t Hnd. unfold select_by_hash. induction t as [|r t IH]; [constructor|].
    cbn [map] in Hnd. apply NoDup_cons_iff in Hnd. destruct Hnd as [Hr Hnd].
    cbn [filter]. destruct (row_hash_value r =? h) eqn:E; [|apply IH, Hnd].
    cbn [map]. constructor; [|apply IH, Hnd].
    intros Hin. apply Hr. apply in_map_iff in Hin.
    destruct Hin as [r' [E' Hr']]. apply filter_In in Hr'. destruct Hr' as [Hr' Hh].
    apply in_map_iff. exists r'. split; [|exact Hr'].
    apply Z.eqb_eq in E, Hh. unfold row_key. inversion E'. congruence. }
  apply NoDup_Permutation; [apply Hnd, H1 | apply Hnd, H2 |].
  intros [tid o]. rewrite !select_by_hash_keys. apply Hk.
Qed.

(** X22.  The order of ingestion does not matter to a reader: inserting two
    dictionaries in either order into a table of distinct keys gives tables
    on which every lookup lists the same occurrences and every query is
    matched to the same tracks with the same confidences. *)
Theorem ingestion_order_irrelevant (table : list fingerprint_row)
  (d1 d2 : list (string * list AudioFingerprint))
  (Hkeys : NoDup (map row_key table)) :
  (forall h : Z,
      Permutation
        (select_by_hash (insert_fingerprints (insert_fingerprints table d1) d2) h)
        (select_by_hash (insert_fingerprints (insert_fingerprints table d2) d1) h))
  /\ (forall (sample : list AudioFingerprint) (threshold : Z),
        Permutation
          (match_fingerprint
             (select_by_hash (insert_fingerprints (insert_fingerprints table d1) d2))
             sample threshold)
          (match_fingerprint
             (select_by_hash (insert_fingerprints (insert_fingerprints table d2) d1))
             sample threshold)).
Proof.
  assert (Hsel : forall h,
             Permutation
               (select_by_hash (insert_fingerprints (insert_fingerprints table d1) d2) h)
               (select_by_hash (insert_fingerprints (insert_fingerprints table d2) d1) h)).
  { intros h. apply select_perm.
    - rewrite !insert_fingerprints_rows. apply insert_rows_NoDup, insert_rows_NoDup, Hkeys.
    - rewrite !insert_fingerprints_rows. apply insert_rows_NoDup, insert_rows_NoDup, Hkeys.
    - intros k. rewrite !insert_fingerprints_keys. tauto. }
  split; [exact Hsel|].
  intros sample threshold.
  apply NoDup_Permutation; try apply match_fingerprint_NoDup.
  intros [tid c]. rewrite !match_fingerprint_spec, !sorted_reverse_In.
  rewrite !spec_candidates_In.
  destruct (match_counts_perm _ _ sample sample tid (Permutation_refl sample) Hsel)
    as [-> ->].
  reflexivity.
Qed.

Lemma ingestion_order_irrelevant_witness :
  Permutation
    (select_by_hash
       (insert_fingerprints (insert_fingerprints [] [("a"%string, [query 10 0])])
          [("b"%string, [query 10 2])]) 10)
    (select_by_hash
       (insert_fingerprints (insert_fingerprints [] [("b"%string, [query 10 2])])
          [("a"%string, [query 10 0])]) 10).
Proof.
  apply (ingestion_order_irrelevant [] [("a"%string, [query 10 0])]
           [("b"%string, [query 10 2])]).
  constructor.
Defined.
